(** * go-airports-service: the streaming and the full-buffer upsert handlers

    A shallow embedding of

    - [handlers/v1/airports] : [HandleUpsert], [readExpectedToken],
      [processAirport], [processAirports], [HandleNonStreamingUpsert],
      [UpsertAirportRequest], [ToAirport];
    - [db/airports] : [Airport], [upsertQuery], [Upsert];
    - [benchmark/bin/json_gen] : the payload generator [json_gen.sh];

    together with the parts of their environment they call into: the
    [encoding/json] decoder (at the granularity of JSON lexemes), the
    [validate] and [web] packages of the repository, the SQL store and the
    HTTP response writer. *)

From Stdlib Require Import List String Ascii Bool Arith Lia.
From Stdlib Require DecimalString DecimalNat.
Import ListNotations.

Set Warnings "-register-all".

Local Open Scope string_scope.
Local Open Scope list_scope.

(** Go's string concatenation. *)
Infix "+++" := String.append (right associativity, at level 60).

(** A Go [error] is represented by its [Error()] text; [nil] is [None]. *)
Definition error := string.

Definition io_EOF : error := "EOF".

(** [errors.Wrap(err, msg).Error()] and [fmt.Sprintf("%s: %v", msg, err)]. *)
Definition errors_Wrap (e : error) (msg : string) : error := msg +++ ": " +++ e.

(** ** encoding/json, lexeme level *)
Module json.

(** The request body after lexing: insignificant white space is gone, a
    string lexeme carries its unquoted contents, a number lexeme its
    literal text.  [LInvalid] stands for bytes that begin no JSON lexeme. *)
Inductive lexeme : Type :=
| LBeginArray            (* [ *)
| LEndArray              (* ] *)
| LBeginObject           (* { *)
| LEndObject             (* } *)
| LColon
| LComma
| LString (s : string)
| LNumber (lit : string)
| LTrue
| LFalse
| LNull
| LInvalid.

(** A complete JSON value.  Object members keep their source order. *)
Inductive value : Type :=
| JNull
| JBool (b : bool)
| JNumber (lit : string)
| JString (s : string)
| JArray (vs : list value)
| JObject (ms : list (string * value)).

(** Induction over values that reaches into arrays and objects. *)
Section value_nested_ind.
Variable P : value -> Prop.
Hypothesis HNull : P JNull.
Hypothesis HBool : forall b, P (JBool b).
Hypothesis HNumber : forall lit, P (JNumber lit).
Hypothesis HString : forall s, P (JString s).
Hypothesis HArray : forall vs, Forall P vs -> P (JArray vs).
Hypothesis HObject : forall ms, Forall (fun m => P (snd m)) ms -> P (JObject ms).

Fixpoint value_nested_ind (v : value) : P v :=
  match v with
  | JNull => HNull
  | JBool b => HBool b
  | JNumber lit => HNumber lit
  | JString s => HString s
  | JArray vs =>
      HArray vs
        ((fix all (l : list value) : Forall P l :=
            match l with
            | [] => Forall_nil P
            | x :: l' => Forall_cons x (value_nested_ind x) (all l')
            end) vs)
  | JObject ms =>
      HObject ms
        ((fix all (l : list (string * value)) : Forall (fun m => P (snd m)) l :=
            match l with
            | [] => Forall_nil _
            | m :: l' => Forall_cons m (value_nested_ind (snd m)) (all l')
            end) ms)
  end.
End value_nested_ind.

(** *** scanner.go: the push-down scanner *)

(** One entry of the scanner's [parseState] stack, with the part of the
    enclosing composite value read so far (latest first).  In
    [parseObject ms k] the key [k] is [Some] from the moment the key has
    been read until its value is complete. *)
Inductive parseState : Type :=
| parseObject (ms : list (string * value)) (k : option string)
| parseArray (vs : list value).

Inductive scanStep : Type :=
| stateBeginValue
| stateBeginValueOrEmpty     (* just after [ *)
| stateBeginStringOrEmpty    (* just after { *)
| stateBeginString           (* after , inside an object *)
| stateEndValue.             (* after a key or a value *)

Inductive stepResult : Type :=
| scanContinue (s : scanStep) (stack : list parseState)
| scanEnd (v : value)
| scanError (msg : error).

(** A value is complete: hand it to the enclosing composite, or finish. *)
Definition endValue (v : value) (stack : list parseState) : stepResult :=
  match stack with
  | [] => scanEnd v
  | parseArray vs :: st => scanContinue stateEndValue (parseArray (v :: vs) :: st)
  | parseObject ms (Some k) :: st =>
      scanContinue stateEndValue (parseObject ((k, v) :: ms) None :: st)
  | parseObject _ None :: _ => scanError "invalid character after object key"
  end.

Definition beginValue (c : lexeme) (stack : list parseState) : stepResult :=
  match c with
  | LBeginObject => scanContinue stateBeginStringOrEmpty (parseObject [] None :: stack)
  | LBeginArray => scanContinue stateBeginValueOrEmpty (parseArray [] :: stack)
  | LString s => endValue (JString s) stack
  | LNumber n => endValue (JNumber n) stack
  | LTrue => endValue (JBool true) stack
  | LFalse => endValue (JBool false) stack
  | LNull => endValue JNull stack
  | _ => scanError "invalid character looking for beginning of value"
  end.

Definition beginString (c : lexeme) (stack : list parseState) : stepResult :=
  match c, stack with
  | LString k, parseObject ms None :: st =>
      scanContinue stateEndValue (parseObject ms (Some k) :: st)
  | _, _ => scanError "invalid character looking for beginning of object key string"
  end.

Definition stateEnd (c : lexeme) (stack : list parseState) : stepResult :=
  match stack with
  | parseObject ms (Some k) :: st =>
      match c with
      | LColon => scanContinue stateBeginValue stack
      | _ => scanError "invalid character after object key"
      end
  | parseObject ms None :: st =>
      match c with
      | LComma => scanContinue stateBeginString stack
      | LEndObject => endValue (JObject (rev ms)) st
      | _ => scanError "invalid character after object key:value pair"
      end
  | parseArray vs :: st =>
      match c with
      | LComma => scanContinue stateBeginValue stack
      | LEndArray => endValue (JArray (rev vs)) st
      | _ => scanError "invalid character after array element"
      end
  | [] => scanError "invalid character after top-level value"
  end.

Definition step (s : scanStep) (stack : list parseState) (c : lexeme) : stepResult :=
  match s with
  | stateBeginValue => beginValue c stack
  | stateBeginValueOrEmpty =>
      match c with
      | LEndArray => stateEnd c stack
      | _ => beginValue c stack
      end
  | stateBeginStringOrEmpty =>
      match c with
      | LEndObject => stateEnd c stack
      | _ => beginString c stack
      end
  | stateBeginString => beginString c stack
  | stateEndValue => stateEnd c stack
  end.

Inductive scanResult : Type :=
| Scanned (v : value) (rest : list lexeme)
| SyntaxError (msg : error)
| UnexpectedEOF.

(** Feed lexemes to the scanner until one value is complete. *)
Fixpoint scan (s : scanStep) (stack : list parseState) (input : list lexeme) : scanResult :=
  match input with
  | [] => UnexpectedEOF
  | c :: rest =>
      match step s stack c with
      | scanContinue s' stack' => scan s' stack' rest
      | scanEnd v => Scanned v rest
      | scanError msg => SyntaxError msg
      end
  end.

(** Go on scanning [rest] from where a step has led. *)
Definition resume (r : stepResult) (rest : list lexeme) : scanResult :=
  match r with
  | scanContinue s' stack' => scan s' stack' rest
  | scanEnd v => Scanned v rest
  | scanError msg => SyntaxError msg
  end.

(** [Decoder.readValue]: one complete value off the front of the input. *)
Definition readValue (input : list lexeme) : scanResult :=
  scan stateBeginValue [] input.

(** The lexemes of a value, as a client serialises it. *)
Fixpoint lex (v : value) : list lexeme :=
  match v with
  | JNull => [LNull]
  | JBool true => [LTrue]
  | JBool false => [LFalse]
  | JNumber n => [LNumber n]
  | JString s => [LString s]
  | JArray vs =>
      LBeginArray ::
      (fix elems (first : bool) (l : list value) : list lexeme :=
         match l with
         | [] => [LEndArray]
         | x :: l' => (if first then [] else [LComma]) ++ lex x ++ elems false l'
         end) true vs
  | JObject ms =>
      LBeginObject ::
      (fix members (first : bool) (l : list (string * value)) : list lexeme :=
         match l with
         | [] => [LEndObject]
         | (k, x) :: l' =>
             (if first then [] else [LComma]) ++ LString k :: LColon :: lex x ++ members false l'
         end) true ms
  end.

(** The elements of an array with their separating commas, without the
    brackets: what follows the opening bracket of [lex (JArray vs)]. *)
Fixpoint lexElems (first : bool) (vs : list value) : list lexeme :=
  match vs with
  | [] => []
  | x :: vs' => (if first then [] else [LComma]) ++ lex x ++ lexElems false vs'
  end.

Fixpoint lexMembers (first : bool) (ms : list (string * value)) : list lexeme :=
  match ms with
  | [] => []
  | (k, x) :: ms' =>
      (if first then [] else [LComma]) ++ LString k :: LColon :: lex x ++ lexMembers false ms'
  end.

(** Wherever a value is expected, the scanner reads the lexemes of [v] as
    the one value [v] and goes on with what follows them. *)
Definition scans (v : value) : Prop :=
  forall stack rest,
    scan stateBeginValue stack (lex v ++ rest) = resume (endValue v stack) rest.

(** *** stream.go: the token-level decoder *)

Inductive tokState : Type :=
| tokenTopValue
| tokenArrayStart
| tokenArrayValue
| tokenArrayComma
| tokenObjectStart
| tokenObjectKey
| tokenObjectColon
| tokenObjectValue
| tokenObjectComma.

Definition tokState_eqb (a b : tokState) : bool :=
  match a, b with
  | tokenTopValue, tokenTopValue | tokenArrayStart, tokenArrayStart
  | tokenArrayValue, tokenArrayValue | tokenArrayComma, tokenArrayComma
  | tokenObjectStart, tokenObjectStart | tokenObjectKey, tokenObjectKey
  | tokenObjectColon, tokenObjectColon | tokenObjectValue, tokenObjectValue
  | tokenObjectComma, tokenObjectComma => true
  | _, _ => false
  end.

(** A [*json.Decoder] reading from the request body.  [buf] is the input
    not yet consumed; [eof] is the error the reader reports once the input
    is exhausted ([io.EOF], or the transport's error); [err] is the
    decoder's sticky error. *)
Record Decoder : Type := mkDecoder {
  buf : list lexeme;
  eof : error;
  err : option error;
  tokenState : tokState;
  tokenStack : list tokState
}.

Definition NewDecoder (body : list lexeme) (eof : error) : Decoder :=
  mkDecoder body eof None tokenTopValue [].

Definition tokenValueAllowed (ts : tokState) : bool :=
  match ts with
  | tokenTopValue | tokenArrayStart | tokenArrayValue | tokenObjectValue => true
  | _ => false
  end.

Definition tokenValueEnd (ts : tokState) : tokState :=
  match ts with
  | tokenArrayStart | tokenArrayValue => tokenArrayComma
  | tokenObjectValue => tokenObjectComma
  | _ => ts
  end.

(** [Decoder.tokenPrepareForDecode]: between two array elements a comma is
    consumed, between an object key and its value a colon. *)
Definition tokenPrepareForDecode (dec : Decoder) : option error * Decoder :=
  match tokenState dec with
  | tokenArrayComma =>
      match buf dec with
      | [] => (Some (eof dec), dec)
      | LComma :: rest =>
          (None, mkDecoder rest (eof dec) (err dec) tokenArrayValue (tokenStack dec))
      | _ :: _ => (Some "expected comma after array element", dec)
      end
  | tokenObjectColon =>
      match buf dec with
      | [] => (Some (eof dec), dec)
      | LColon :: rest =>
          (None, mkDecoder rest (eof dec) (err dec) tokenObjectValue (tokenStack dec))
      | _ :: _ => (Some "expected colon after object key", dec)
      end
  | _ => (None, dec)
  end.

(** [Decoder.Decode(v)].  [unmarshal] is what [decodeState.unmarshal] does
    for the static type of [v]: it stores the value into [v] and reports
    the first mismatch, if any. *)
Definition Decode {T : Type} (unmarshal : value -> T -> option error * T)
    (v : T) (dec : Decoder) : (option error * T) * Decoder :=
  match err dec with
  | Some e => (Some e, v, dec)
  | None =>
      match tokenPrepareForDecode dec with
      | (Some e, dec1) => (Some e, v, dec1)
      | (None, dec1) =>
          if negb (tokenValueAllowed (tokenState dec1))
          then (Some "not at beginning of value", v, dec1)
          else
            match readValue (buf dec1) with
            | SyntaxError msg =>
                (Some msg, v,
                 mkDecoder (buf dec1) (eof dec1) (Some msg) (tokenState dec1) (tokenStack dec1))
            | UnexpectedEOF =>
                let e := if String.eqb (eof dec1) io_EOF
                         then match buf dec1 with
                              | [] => io_EOF
                              | _ :: _ => "unexpected EOF"
                              end
                         else eof dec1 in
                (Some e, v,
                 mkDecoder (buf dec1) (eof dec1) (Some e) (tokenState dec1) (tokenStack dec1))
            | Scanned x rest =>
                (unmarshal x v,
                 mkDecoder rest (eof dec1) (err dec1)
                   (tokenValueEnd (tokenState dec1)) (tokenStack dec1))
            end
      end
  end.

(** [Decoder.More]: another element before the closing delimiter? *)
Definition More (dec : Decoder) : bool :=
  match buf dec with
  | [] => false
  | LEndArray :: _ | LEndObject :: _ => false
  | _ :: _ => true
  end.

(** A [json.Token]: a delimiter ([json.Delim]) or a basic value. *)
Inductive Token : Type :=
| Delim (c : ascii)
| Basic (v : value).

(** [tok == json.Delim(c)]: a token of another dynamic type is not equal. *)
Definition isDelim (tok : Token) (c : ascii) : bool :=
  match tok with
  | Delim d => Ascii.eqb d c
  | Basic _ => false
  end.

Definition tokenError (dec : Decoder) : (error + Token) * Decoder :=
  (inl "invalid character in token stream", dec).

(** The token stack is kept with its top first; it is not empty where the
    decoder pops it. *)
Definition popTokenStack (stack : list tokState) : tokState * list tokState :=
  match stack with
  | [] => (tokenTopValue, [])
  | ts :: r => (ts, r)
  end.

(** [Decoder.Token]: the next token; separators are skipped on the way. *)
Fixpoint TokenFrom (input : list lexeme) (dec : Decoder) : (error + Token) * Decoder :=
  let here := mkDecoder input (eof dec) (err dec) (tokenState dec) (tokenStack dec) in
  match input with
  | [] => (inl (eof dec), here)
  | c :: rest =>
      let ts := tokenState dec in
      let basic :=
        if negb (tokenValueAllowed ts) then tokenError here
        else
          match Decode (fun x _ => (None, x)) JNull here with
          | (Some e, _, dec') => (inl e, dec')
          | (None, x, dec') => (inr (Basic x), dec')
          end in
      match c with
      | LBeginArray =>
          if negb (tokenValueAllowed ts) then tokenError here
          else (inr (Delim "["),
                mkDecoder rest (eof dec) (err dec) tokenArrayStart (ts :: tokenStack dec))
      | LEndArray =>
          if negb (tokState_eqb ts tokenArrayStart || tokState_eqb ts tokenArrayComma)
          then tokenError here
          else
            let (ts', stack') := popTokenStack (tokenStack dec) in
            (inr (Delim "]"),
             mkDecoder rest (eof dec) (err dec) (tokenValueEnd ts') stack')
      | LBeginObject =>
          if negb (tokenValueAllowed ts) then tokenError here
          else (inr (Delim "{"),
                mkDecoder rest (eof dec) (err dec) tokenObjectStart (ts :: tokenStack dec))
      | LEndObject =>
          if negb (tokState_eqb ts tokenObjectStart || tokState_eqb ts tokenObjectComma)
          then tokenError here
          else
            let (ts', stack') := popTokenStack (tokenStack dec) in
            (inr (Delim "}"),
             mkDecoder rest (eof dec) (err dec) (tokenValueEnd ts') stack')
      | LColon =>
          if tokState_eqb ts tokenObjectColon
          then TokenFrom rest (mkDecoder rest (eof dec) (err dec) tokenObjectValue (tokenStack dec))
          else tokenError here
      | LComma =>
          if tokState_eqb ts tokenArrayComma
          then TokenFrom rest (mkDecoder rest (eof dec) (err dec) tokenArrayValue (tokenStack dec))
          else if tokState_eqb ts tokenObjectComma
          then TokenFrom rest (mkDecoder rest (eof dec) (err dec) tokenObjectKey (tokenStack dec))
          else tokenError here
      | LString _ =>
          if tokState_eqb ts tokenObjectStart || tokState_eqb ts tokenObjectKey
          then
            (* an object key: decoded as a top-level value, then a colon is due *)
            match Decode (fun x _ => (None, x)) JNull
                    (mkDecoder input (eof dec) (err dec) tokenTopValue (tokenStack dec)) with
            | (Some e, _, dec') =>
                (inl e, mkDecoder (buf dec') (eof dec') (err dec') ts (tokenStack dec'))
            | (None, x, dec') =>
                (inr (Basic x),
                 mkDecoder (buf dec') (eof dec') (err dec') tokenObjectColon (tokenStack dec'))
            end
          else basic
      | _ => basic
      end
  end.

Definition NextToken (dec : Decoder) : (error + Token) * Decoder :=
  TokenFrom (buf dec) dec.

(** *** decode.go: [json.Unmarshal] *)

(** [checkValid] followed by [decodeState.unmarshal]: the whole input must
    be exactly one value. *)
Definition Unmarshal {T : Type} (unmarshal : value -> T -> option error * T)
    (data : list lexeme) (v : T) : option error * T :=
  match readValue data with
  | Scanned x [] => unmarshal x v
  | Scanned _ (_ :: _) => (Some "invalid character after top-level value", v)
  | SyntaxError msg => (Some msg, v)
  | UnexpectedEOF => (Some "unexpected end of JSON input", v)
  end.

End json.

(** ** net/http: the response writer *)
Module http.

Definition StatusOK : nat := 200.
Definition StatusBadRequest : nat := 400.
Definition StatusInternalServerError : nat := 500.

(** What the client has been sent.  [wroteHeader] is the committed status
    line, [None] while status and headers can still change; [written]
    holds the JSON documents written to the body, oldest first. *)
Record ResponseWriter : Type := mkResponseWriter {
  wroteHeader : option nat;
  written : list json.value
}.

Definition NewRecorder : ResponseWriter := mkResponseWriter None [].

(** The first call commits the status; later calls are ignored. *)
Definition WriteHeader (code : nat) (w : ResponseWriter) : ResponseWriter :=
  match wroteHeader w with
  | Some _ => w
  | None => mkResponseWriter (Some code) (written w)
  end.

(** A write commits status 200 when no status has been committed yet. *)
Definition Write (doc : json.value) (w : ResponseWriter) : ResponseWriter :=
  let w' := WriteHeader StatusOK w in
  mkResponseWriter (wroteHeader w') (written w' ++ [doc]).

(** The status the client observes ([httptest.ResponseRecorder.Code]). *)
Definition Code (w : ResponseWriter) : nat :=
  match wroteHeader w with
  | Some c => c
  | None => StatusOK
  end.

End http.

(** ** package web *)
Module web.

(** Modelled from the spec: package [web] is not among the sources.  The
    body of an error response is the JSON object with the single member
    [error]. *)
Definition errorBody (msg : string) : json.value :=
  json.JObject [("error", json.JString msg)].

(** Modelled from the spec: [web.Respond] (not among the sources) sets the
    status and writes the JSON encoding of the payload. *)
Definition Respond (code : nat) (data : json.value) (w : http.ResponseWriter)
  : http.ResponseWriter :=
  http.Write data (http.WriteHeader code w).

(** Modelled from the spec: [web.RespondWithError] (not among the sources)
    responds with the given status and the error body. *)
Definition RespondWithError (code : nat) (msg : string) (w : http.ResponseWriter)
  : http.ResponseWriter :=
  Respond code (errorBody msg) w.

(** Modelled from the spec: [web.RespondAfterFlush] (not among the sources)
    writes the body only, status and headers being committed already. *)
Definition RespondAfterFlush (data : json.value) (w : http.ResponseWriter)
  : http.ResponseWriter :=
  http.Write data w.

End web.

(** ** package validate *)
Module validate.

Record FieldError : Type := mkFieldError {
  Field : string;
  Err : string
}.

(** What the struct tags of a request type declare: the wire name of each
    field carrying [validate:"required"], with the field's value, in
    declaration order. *)
Class Required (T : Type) : Type := requiredFields : T -> list (string * string).

(** Modelled from the spec: white space, which does not count as presence
    (space, tab, line feed, carriage return, vertical tab, form feed). *)
Definition isSpace (c : ascii) : bool :=
  let n := nat_of_ascii c in
  Nat.eqb n 32 || Nat.eqb n 9 || Nat.eqb n 10 || Nat.eqb n 13 || Nat.eqb n 11 || Nat.eqb n 12.

(** Modelled from the spec: the field holds nothing but white space. *)
Fixpoint blank (s : string) : bool :=
  match s with
  | EmptyString => true
  | String c s' => isSpace c && blank s'
  end.

(** Modelled from the spec: package [validate] is not among the sources.
    Each required field must be present, white space not counting; the
    violations come in the declaration order of the fields, each with the
    text the handlers' tests expect. *)
Fixpoint violations (fields : list (string * string)) : list FieldError :=
  match fields with
  | [] => []
  | (name, v) :: fields' =>
      if blank v
      then mkFieldError name (name +++ " is a required field") :: violations fields'
      else violations fields'
  end.

Definition dq : string := String "034"%char EmptyString.

Definition quote (s : string) : string := dq +++ s +++ dq.

Definition renderFieldError (f : FieldError) : string :=
  "{" +++ quote "field" +++ ":" +++ quote (Field f) +++ ","
      +++ quote "error" +++ ":" +++ quote (Err f) +++ "}".

Fixpoint renderFieldErrors (first : bool) (fs : list FieldError) : string :=
  match fs with
  | [] => "]"
  | f :: fs' => (if first then EmptyString else ",") +++ renderFieldError f
                +++ renderFieldErrors false fs'
  end.

(** Modelled from the spec: the error text of a violation list is its JSON
    encoding, as the handlers' tests expect it. *)
Definition FieldErrors_Error (fs : list FieldError) : error :=
  "[" +++ renderFieldErrors true fs.

(** Modelled from the spec: [validate.Check], [nil] when nothing is violated. *)
Definition Check {T : Type} `{Required T} (v : T) : option error :=
  match violations (requiredFields v) with
  | [] => None
  | fs => Some (FieldErrors_Error fs)
  end.

End validate.

(** ** package db/airports *)
Module airports.

Record Airport : Type := mkAirport {
  Name : string;
  City : string;
  Country : string;
  IataCode : string
}.

(** The [*sql.DB] handle: the rows of table [airports], and for each coming
    statement whether the driver fails it ([Some cause]) or executes it
    ([None]; so does an exhausted schedule). *)
Record DB : Type := mkDB {
  rows : list Airport;
  faults : list (option error)
}.

(** [INSERT INTO airports (name, city, country, iata_code) VALUES ($1, $2, $3, $4)
     ON CONFLICT (iata_code) DO UPDATE SET name = $1, city = $2, country = $3] *)
Fixpoint upsertQuery (name city country iata_code : string) (table : list Airport)
  : list Airport :=
  match table with
  | [] => [mkAirport name city country iata_code]
  | r :: table' =>
      if String.eqb (IataCode r) iata_code
      then mkAirport name city country (IataCode r) :: table'
      else r :: upsertQuery name city country iata_code table'
  end.

(** [db.ExecContext]: a failed statement changes no row. *)
Definition ExecContext (stmt : list Airport -> list Airport) (db : DB)
  : option error * DB :=
  match faults db with
  | Some cause :: fs => (Some cause, mkDB (rows db) fs)
  | None :: fs => (None, mkDB (stmt (rows db)) fs)
  | [] => (None, mkDB (stmt (rows db)) [])
  end.

Definition Upsert (db : DB) (airport : Airport) : option error * DB :=
  match ExecContext (upsertQuery (Name airport) (City airport) (Country airport)
                       (IataCode airport)) db with
  | (Some err, db') => (Some (errors_Wrap err "upserting airport"), db')
  | (None, db') => (None, db')
  end.

End airports.

(** ** package handlers/v1/airports *)
Module handlers.

Import json.

(** UpsertAirportRequest represents a request to upsert an airport. *)
Record UpsertAirportRequest : Type := mkUpsertAirportRequest {
  Name : string;         (* json:"name" validate:"required" *)
  City : string;         (* json:"city" validate:"required" *)
  Country : string;      (* json:"country" validate:"required" *)
  IataCode : string      (* json:"iata_code" validate:"required" *)
}.

#[export] Instance UpsertAirportRequest_Required : validate.Required UpsertAirportRequest :=
  fun u => [("name", Name u); ("city", City u); ("country", Country u);
            ("iata_code", IataCode u)].

(** ToAirport converts an upsert airport request to an airport. *)
Definition ToAirport (u : UpsertAirportRequest) : airports.Airport :=
  airports.mkAirport (Name u) (City u) (Country u) (IataCode u).

(** UpsertAirportResponse represents a response to an upsert airport request. *)
Record UpsertAirportResponse : Type := mkUpsertAirportResponse {
  Message : string       (* json:"message" *)
}.

Definition marshalResponse (r : UpsertAirportResponse) : value :=
  JObject [("message", JString (Message r))].

(** handlerError is a custom error type that carries an HTTP status code. *)
Record handlerError : Type := mkHandlerError {
  code : nat;
  msg : string
}.

Definition Error (he : handlerError) : string := msg he.

(** maxBufferedReaderSize is the maximum size of the buffered reader. *)
Definition maxBufferedReaderSize : nat := 32 * 1024.

(** *** What [encoding/json] does for the request type *)

Inductive field : Type := fName | fCity | fCountry | fIataCode.

Definition lower (c : ascii) : ascii :=
  let n := nat_of_ascii c in
  if Nat.leb 65 n && Nat.leb n 90 then ascii_of_nat (n + 32) else c.

Fixpoint foldName (s : string) : string :=
  match s with
  | EmptyString => EmptyString
  | String c s' => String (lower c) (foldName s')
  end.

(** A member's key selects the field whose wire name it equals, letter
    case not counting. *)
Definition fieldByName (key : string) : option field :=
  let k := foldName key in
  if String.eqb k "name" then Some fName
  else if String.eqb k "city" then Some fCity
  else if String.eqb k "country" then Some fCountry
  else if String.eqb k "iata_code" then Some fIataCode
  else None.

Definition setField (f : field) (s : string) (u : UpsertAirportRequest)
  : UpsertAirportRequest :=
  match f with
  | fName => mkUpsertAirportRequest s (City u) (Country u) (IataCode u)
  | fCity => mkUpsertAirportRequest (Name u) s (Country u) (IataCode u)
  | fCountry => mkUpsertAirportRequest (Name u) (City u) s (IataCode u)
  | fIataCode => mkUpsertAirportRequest (Name u) (City u) (Country u) s
  end.

Definition firstError (saved e : option error) : option error :=
  match saved with
  | Some _ => saved
  | None => e
  end.

(** One member of an object: a string is stored into its field, [null]
    leaves the field as it is, any other value is a type mismatch; members
    with other keys ([geoloc] among them) are skipped. *)
Definition unmarshalMember (m : string * value) (u : UpsertAirportRequest)
  : option error * UpsertAirportRequest :=
  match fieldByName (fst m) with
  | None => (None, u)
  | Some f =>
      match snd m with
      | JString s => (None, setField f s u)
      | JNull => (None, u)
      | _ => (Some "json: cannot unmarshal value into Go struct field of type string", u)
      end
  end.

(** The members are stored in source order (a repeated key overwrites);
    the first mismatch is saved and reported at the end. *)
Fixpoint unmarshalMembers (ms : list (string * value)) (saved : option error)
    (u : UpsertAirportRequest) : option error * UpsertAirportRequest :=
  match ms with
  | [] => (saved, u)
  | m :: ms' =>
      let (e, u') := unmarshalMember m u in
      unmarshalMembers ms' (firstError saved e) u'
  end.

Definition unmarshalRequest (x : value) (u : UpsertAirportRequest)
  : option error * UpsertAirportRequest :=
  match x with
  | JNull => (None, u)
  | JObject ms => unmarshalMembers ms None u
  | _ => (Some "json: cannot unmarshal value into Go value of type airports.UpsertAirportRequest", u)
  end.

Definition zeroRequest : UpsertAirportRequest :=
  mkUpsertAirportRequest EmptyString EmptyString EmptyString EmptyString.

Fixpoint unmarshalElements (vs : list value) (saved : option error)
  : option error * list UpsertAirportRequest :=
  match vs with
  | [] => (saved, [])
  | x :: vs' =>
      let (e, u) := unmarshalRequest x zeroRequest in
      let (saved', us) := unmarshalElements vs' (firstError saved e) in
      (saved', u :: us)
  end.

(** Into a slice of requests: [null] gives the nil slice, an array one
    fresh request per element. *)
Definition unmarshalRequests (x : value) (v : list UpsertAirportRequest)
  : option error * list UpsertAirportRequest :=
  match x with
  | JNull => (None, [])
  | JArray vs => unmarshalElements vs None
  | _ => (Some "json: cannot unmarshal value into Go value of type []airports.UpsertAirportRequest", v)
  end.

(** *** The request, the world, and what a handler does to it *)

(** The body as the server receives it: its lexemes, and the error the
    transport reports at their end instead of a clean end of input. *)
Record Request : Type := mkRequest {
  Body : list lexeme;
  BodyErr : option error
}.

Definition bodyEOF (r : Request) : error :=
  match BodyErr r with
  | Some e => e
  | None => io_EOF
  end.

(** One call into a collaborator, with its result. *)
Inductive event : Type :=
| EvToken (r : error + Token)
| EvMore (more : bool)
| EvDecode (r : option error * UpsertAirportRequest)
| EvReadAll (r : option error)
| EvUnmarshal (r : option error)
| EvCheck (req : UpsertAirportRequest) (r : option error)
| EvUpsert (a : airports.Airport) (r : option error)
| EvFlush (r : option error)
| EvRespond (status : option nat) (body : value).

(** The store behind [h.db], the response writer [w], whether a flush of
    [w] fails, and the calls made so far, oldest first. *)
Record World : Type := mkWorld {
  db : airports.DB;
  w : http.ResponseWriter;
  flushErr : option error;
  trace : list event
}.

(** Computations on the world; [None] is a loop that ran out of fuel. *)
Definition M (A : Type) : Type := World -> option (A * World).

Definition ret {A : Type} (a : A) : M A := fun s => Some (a, s).

Definition bind {A B : Type} (c : M A) (k : A -> M B) : M B :=
  fun s => match c s with
           | Some (a, s') => k a s'
           | None => None
           end.

Declare Scope go_scope.
Delimit Scope go_scope with go.
Notation "x <- c ;; k" := (bind c (fun x => k))
  (at level 100, c at next level, right associativity) : go_scope.
Notation "' p <- c ;; k" := (bind c (fun x => let 'p := x in k))
  (at level 100, p pattern, c at next level, right associativity) : go_scope.
Local Open Scope go_scope.

Definition emit (e : event) : M unit :=
  fun s => Some (tt, mkWorld (db s) (w s) (flushErr s) (trace s ++ [e])).

Definition Token (dec : Decoder) : M ((error + Token) * Decoder) :=
  let r := NextToken dec in
  _ <- emit (EvToken (fst r)) ;; ret r.

Definition More (dec : Decoder) : M bool :=
  let b := json.More dec in
  _ <- emit (EvMore b) ;; ret b.

Definition Decode (dec : Decoder) : M ((option error * UpsertAirportRequest) * Decoder) :=
  let r := json.Decode unmarshalRequest zeroRequest dec in
  _ <- emit (EvDecode (fst r)) ;; ret r.

Definition validate_Check (req : UpsertAirportRequest) : M (option error) :=
  let r := validate.Check req in
  _ <- emit (EvCheck req r) ;; ret r.

(** upsertAirport is a function that upserts an airport in the database. *)
Definition upsertAirport (airport : airports.Airport) : M (option error) :=
  fun s =>
    let (r, db') := airports.Upsert (db s) airport in
    Some (r, mkWorld db' (w s) (flushErr s) (trace s ++ [EvUpsert airport r])).

(** responseController is an interface that wraps the Flush method. *)
Record responseController : Type := mkResponseController {
  FlushErr : option error
}.

(** newHttpResponseController is a function that creates a new response controller. *)
Definition newHttpResponseController : M responseController :=
  fun s => Some (mkResponseController (flushErr s), s).

(** A flush that succeeds commits status and headers. *)
Definition Flush (ctr : responseController) : M (option error) :=
  fun s =>
    let w' := match FlushErr ctr with
              | Some _ => w s
              | None => http.WriteHeader http.StatusOK (w s)
              end in
    Some (FlushErr ctr, mkWorld (db s) w' (flushErr s) (trace s ++ [EvFlush (FlushErr ctr)])).

Definition web_RespondWithError (status : nat) (m : string) : M unit :=
  fun s => Some (tt, mkWorld (db s) (web.RespondWithError status m (w s)) (flushErr s)
                       (trace s ++ [EvRespond (Some status) (web.errorBody m)])).

Definition web_Respond (status : nat) (data : value) : M unit :=
  fun s => Some (tt, mkWorld (db s) (web.Respond status data (w s)) (flushErr s)
                       (trace s ++ [EvRespond (Some status) data])).

Definition web_RespondAfterFlush (data : value) : M unit :=
  fun s => Some (tt, mkWorld (db s) (web.RespondAfterFlush data (w s)) (flushErr s)
                       (trace s ++ [EvRespond None data])).

Definition ioReadAll (r : Request) : M (list lexeme * option error) :=
  _ <- emit (EvReadAll (BodyErr r)) ;; ret (Body r, BodyErr r).

Definition jsonUnmarshal (data : list lexeme) (v : list UpsertAirportRequest)
  : M (option error * list UpsertAirportRequest) :=
  let r := json.Unmarshal unmarshalRequests data v in
  _ <- emit (EvUnmarshal (fst r)) ;; ret r.

(** *** airports.go *)

Definition showToken (t : json.Token) : string :=
  match t with
  | Delim c => String c EmptyString
  | Basic JNull => "<nil>"
  | Basic (JBool true) => "true"
  | Basic (JBool false) => "false"
  | Basic (JNumber lit) => lit
  | Basic (JString s) => s
  | Basic _ => EmptyString
  end.

(** readExpectedToken reads the next token and verifies it matches the expected delimiter. *)
Definition readExpectedToken (dec : Decoder) (expected : ascii)
  : M (option error * Decoder) :=
  '(r, dec) <- Token dec ;;
  match r with
  | inl err => ret (Some err, dec)
  | inr tok =>
      if negb (isDelim tok expected)
      then ret (Some ("unexpected token: got " +++ showToken tok +++ ", expected "
                      +++ String expected EmptyString), dec)
      else ret (None, dec)
  end.

(** processAirport handles processing of a single airport entry. *)
Definition processAirport (dec : Decoder) : M (option handlerError * Decoder) :=
  '(err, req, dec) <- Decode dec ;;
  match err with
  | Some _ =>
      ret (Some (mkHandlerError http.StatusBadRequest "invalid JSON airport structure"), dec)
  | None =>
      err <- validate_Check req ;;
      match err with
      | Some err => ret (Some (mkHandlerError http.StatusBadRequest err), dec)
      | None =>
          err <- upsertAirport (ToAirport req) ;;
          match err with
          | Some err =>
              ret (Some (mkHandlerError http.StatusInternalServerError
                           (errors_Wrap err "error upserting airport")), dec)
          | None => ret (None, dec)
          end
      end
  end.

(** The loop of [processAirports], unrolled at most [fuel] times. *)
Fixpoint processAirportsLoop (fuel : nat) (dec : Decoder)
  : M (option handlerError * Decoder) :=
  match fuel with
  | O => fun _ => None
  | S fuel' =>
      more <- More dec ;;
      if more
      then
        '(herr, dec) <- processAirport dec ;;
        match herr with
        | Some herr => ret (Some herr, dec)
        | None => processAirportsLoop fuel' dec
        end
      else ret (None, dec)
  end.

(** processAirports processes all airports in the JSON array.  Every
    iteration that goes on consumes input, so one more than the length of
    the input is fuel enough. *)
Definition processAirports (dec : Decoder) : M (option handlerError * Decoder) :=
  processAirportsLoop (S (List.length (buf dec))) dec.

(** HandleUpsert handles the upsert of airports in a streaming fashion. *)
Definition HandleUpsert (r : Request) : M unit :=
  ctr <- newHttpResponseController ;;
  let dec := NewDecoder (Body r) (bodyEOF r) in
  (* check for opening '['. *)
  '(err, dec) <- readExpectedToken dec "[" ;;
  match err with
  | Some _ =>
      web_RespondWithError http.StatusBadRequest "invalid JSON: expected '[' at start"
  | None =>
      (* process each airport in the JSON object. *)
      '(herr, dec) <- processAirports dec ;;
      match herr with
      | Some herr => web_RespondWithError (code herr) (Error herr)
      | None =>
          (* check for closing ']'. *)
          '(err, dec) <- readExpectedToken dec "]" ;;
          match err with
          | Some _ =>
              web_RespondWithError http.StatusBadRequest "invalid JSON: expected ']' at end"
          | None =>
              (* flush response and finalize. *)
              err <- Flush ctr ;;
              match err with
              | Some err => web_RespondWithError http.StatusInternalServerError err
              | None =>
                  web_RespondAfterFlush
                    (marshalResponse (mkUpsertAirportResponse "airports upserted"))
              end
          end
      end
  end.

(** *** nonstreaming.go *)

(** The [for ... range] of [HandleNonStreamingUpsert]; [true] when the
    body of the loop has responded and returned from the handler. *)
Fixpoint upsertEach (airportsToBeUpserted : list UpsertAirportRequest) : M bool :=
  match airportsToBeUpserted with
  | [] => ret false
  | request :: next =>
      err <- validate_Check request ;;
      match err with
      | Some err =>
          _ <- web_RespondWithError http.StatusBadRequest err ;; ret true
      | None =>
          err <- upsertAirport (ToAirport request) ;;
          match err with
          | Some err =>
              _ <- web_RespondWithError http.StatusInternalServerError
                     (errors_Wrap err "error upserting airport") ;;
              ret true
          | None => upsertEach next
          end
      end
  end.

(** HandleNonStreamingUpsert handles the upsert of airports by reading the
    entire JSON array into memory. *)
Definition HandleNonStreamingUpsert (r : Request) : M unit :=
  (* read full request body into memory. *)
  '(body, err) <- ioReadAll r ;;
  match err with
  | Some _ => web_RespondWithError http.StatusBadRequest "failed to read request body"
  | None =>
      '(err, airportsToBeUpserted) <- jsonUnmarshal body [] ;;
      match err with
      | Some _ => web_RespondWithError http.StatusBadRequest "invalid JSON format"
      | None =>
          returned <- upsertEach airportsToBeUpserted ;;
          if (returned : bool) then ret tt
          else web_Respond http.StatusOK
                 (marshalResponse (mkUpsertAirportResponse "airports upserted"))
      end
  end.

(** A fresh exchange: a store, an untouched response writer, no call yet. *)
Definition newWorld (store : airports.DB) (flushFails : option error) : World :=
  mkWorld store http.NewRecorder flushFails [].

End handlers.

(** ** What a request does, seen from outside *)
Module run.

Import json handlers.

Definition isNone {A : Type} (o : option A) : bool :=
  match o with
  | None => true
  | Some _ => false
  end.

(** The row a statement of [Upsert] writes. *)
Definition upsertRow (table : list airports.Airport) (a : airports.Airport)
  : list airports.Airport :=
  airports.upsertQuery (airports.Name a) (airports.City a) (airports.Country a)
    (airports.IataCode a) table.

Definition badDecode : handlerError :=
  mkHandlerError http.StatusBadRequest "invalid JSON airport structure".

Definition invalid (e : error) : handlerError :=
  mkHandlerError http.StatusBadRequest e.

Definition notPersisted (cause : error) : handlerError :=
  mkHandlerError http.StatusInternalServerError ("error upserting airport: " +++ cause).

(** Validating and persisting one decoded request [u] against the store:
    the calls made, the error reported, the store afterwards. *)
Inductive attempt (u : UpsertAirportRequest) (d : airports.DB)
  : list event -> option handlerError -> airports.DB -> Prop :=
| attempt_invalid e :
    validate.Check u = Some e ->
    attempt u d [EvCheck u (Some e)] (Some (invalid e)) d
| attempt_failed cause d' :
    validate.Check u = None ->
    airports.Upsert d (ToAirport u) = (Some cause, d') ->
    attempt u d [EvCheck u None; EvUpsert (ToAirport u) (Some cause)]
      (Some (notPersisted cause)) d'
| attempt_done d' :
    validate.Check u = None ->
    airports.Upsert d (ToAirport u) = (None, d') ->
    attempt u d [EvCheck u None; EvUpsert (ToAirport u) None] None d'.

(** One array element on the streaming path. *)
Inductive element (d : airports.DB)
  : list event -> option handlerError -> airports.DB -> Prop :=
| element_undecodable e u :
    element d [EvDecode (Some e, u)] (Some badDecode) d
| element_decoded u evs r d' :
    attempt u d evs r d' ->
    element d (EvDecode (None, u) :: evs) r d'.

(** The streaming loop: elements in order, up to the first error. *)
Inductive streaming (d : airports.DB)
  : list event -> option handlerError -> airports.DB -> Prop :=
| streaming_end :
    streaming d [EvMore false] None d
| streaming_stop evs herr d' :
    element d evs (Some herr) d' ->
    streaming d (EvMore true :: evs) (Some herr) d'
| streaming_next evs d' evs' r d'' :
    element d evs None d' ->
    streaming d' evs' r d'' ->
    streaming d (EvMore true :: evs ++ evs') r d''.

(** The loop of the full-buffer path over the decoded slice. *)
Inductive batch : list UpsertAirportRequest -> airports.DB
  -> list event -> option handlerError -> airports.DB -> Prop :=
| batch_end d :
    batch [] d [] None d
| batch_stop u us d evs herr d' :
    attempt u d evs (Some herr) d' ->
    batch (u :: us) d evs (Some herr) d'
| batch_next u us d evs d' evs' r d'' :
    attempt u d evs None d' ->
    batch us d' evs' r d'' ->
    batch (u :: us) d (evs ++ evs') r d''.

(** A decoder inside the top-level array, before its first element or
    after an element. *)
Definition inArray (first : bool) (input : list lexeme) (eof : error) : Decoder :=
  mkDecoder input eof None (if first then tokenArrayStart else tokenArrayComma)
    [tokenTopValue].

Definition successBody : value :=
  JObject [("message", JString "airports upserted")].

Definition badOpen : string := "invalid JSON: expected '[' at start".
Definition badClose : string := "invalid JSON: expected ']' at end".

Definition opened : event := EvToken (inr (Delim "[")).
Definition closed : event := EvToken (inr (Delim "]")).

Definition respondedError (status : nat) (m : string) : event :=
  EvRespond (Some status) (web.errorBody m).

(** Every way an exchange on the streaming endpoint can go, from a store
    [store] and a response writer whose flush fails as [ff] says. *)
Inductive streamed (store : airports.DB) (ff : option error) : World -> Prop :=
| streamed_bad_open t :
    t <> inr (Delim "[") ->
    streamed store ff
      (mkWorld store (web.RespondWithError 400 badOpen http.NewRecorder) ff
         [EvToken t; respondedError 400 badOpen])
| streamed_element_error evs herr d' :
    streaming store evs (Some herr) d' ->
    streamed store ff
      (mkWorld d' (web.RespondWithError (code herr) (msg herr) http.NewRecorder) ff
         (opened :: evs ++ [respondedError (code herr) (msg herr)]))
| streamed_bad_close evs d' t :
    streaming store evs None d' ->
    t <> inr (Delim "]") ->
    streamed store ff
      (mkWorld d' (web.RespondWithError 400 badClose http.NewRecorder) ff
         (opened :: evs ++ [EvToken t; respondedError 400 badClose]))
| streamed_flush_error evs d' e :
    streaming store evs None d' ->
    ff = Some e ->
    streamed store ff
      (mkWorld d' (web.RespondWithError 500 e http.NewRecorder) ff
         (opened :: evs ++ [closed; EvFlush (Some e); respondedError 500 e]))
| streamed_success evs d' :
    streaming store evs None d' ->
    ff = None ->
    streamed store ff
      (mkWorld d'
         (web.RespondAfterFlush successBody (http.WriteHeader 200 http.NewRecorder)) ff
         (opened :: evs ++ [closed; EvFlush None; EvRespond None successBody])).

(** What the loop of the full-buffer path has sent when it stops. *)
Definition batchWriter (herr : option handlerError) (w0 : http.ResponseWriter)
  : http.ResponseWriter :=
  match herr with
  | Some h => web.RespondWithError (code h) (msg h) w0
  | None => w0
  end.

Definition batchResponse (herr : option handlerError) : list event :=
  match herr with
  | Some h => [respondedError (code h) (msg h)]
  | None => []
  end.

(** Every way an exchange on the full-buffer endpoint can go. *)
Inductive buffered (r : Request) (store : airports.DB) (ff : option error)
  : World -> Prop :=
| buffered_unread e :
    BodyErr r = Some e ->
    buffered r store ff
      (mkWorld store
         (web.RespondWithError 400 "failed to read request body" http.NewRecorder) ff
         [EvReadAll (Some e); respondedError 400 "failed to read request body"])
| buffered_malformed e us :
    BodyErr r = None ->
    json.Unmarshal unmarshalRequests (Body r) [] = (Some e, us) ->
    buffered r store ff
      (mkWorld store (web.RespondWithError 400 "invalid JSON format" http.NewRecorder) ff
         [EvReadAll None; EvUnmarshal (Some e); respondedError 400 "invalid JSON format"])
| buffered_element_error us evs herr d' :
    BodyErr r = None ->
    json.Unmarshal unmarshalRequests (Body r) [] = (None, us) ->
    batch us store evs (Some herr) d' ->
    buffered r store ff
      (mkWorld d' (web.RespondWithError (code herr) (msg herr) http.NewRecorder) ff
         (EvReadAll None :: EvUnmarshal None :: evs
            ++ [respondedError (code herr) (msg herr)]))
| buffered_success us evs d' :
    BodyErr r = None ->
    json.Unmarshal unmarshalRequests (Body r) [] = (None, us) ->
    batch us store evs None d' ->
    buffered r store ff
      (mkWorld d' (web.Respond 200 successBody http.NewRecorder) ff
         (EvReadAll None :: EvUnmarshal None :: evs
            ++ [EvRespond (Some 200) successBody])).

(** *** Reading a trace *)

Definition isFlush (e : event) : bool :=
  match e with EvFlush _ => true | _ => false end.

Definition isToken (e : event) : bool :=
  match e with EvToken _ => true | _ => false end.

Definition isCloseRead (e : event) : bool :=
  match e with
  | EvToken (inr (Delim c)) => Ascii.eqb c "]"
  | _ => false
  end.

Definition isRespond (e : event) : bool :=
  match e with EvRespond _ _ => true | _ => false end.

Definition isUpsert (e : event) : bool :=
  match e with EvUpsert _ _ => true | _ => false end.

(** Nothing of the response is final or written by this call. *)
Definition uncommitted (e : event) : bool := negb (isFlush e || isRespond e).

(** A call made on behalf of one array element. *)
Definition elementCall (e : event) : bool :=
  match e with
  | EvMore _ | EvDecode _ | EvCheck _ _ | EvUpsert _ _ => true
  | _ => false
  end.

(** Some call satisfying [p] comes strictly before some call satisfying [q]. *)
Fixpoint precedesb (p q : event -> bool) (l : list event) : bool :=
  match l with
  | [] => false
  | e :: l' => (p e && existsb q l') || precedesb p q l'
  end.

Definition airport_eqb (a b : airports.Airport) : bool :=
  String.eqb (airports.Name a) (airports.Name b)
  && String.eqb (airports.City a) (airports.City b)
  && String.eqb (airports.Country a) (airports.Country b)
  && String.eqb (airports.IataCode a) (airports.IataCode b).

(** Every upsert call comes right after a check of the request it was
    converted from, and that check found no violation. *)
Fixpoint guarded (prev : option event) (l : list event) : bool :=
  match l with
  | [] => true
  | e :: l' =>
      match e with
      | EvUpsert a _ =>
          match prev with
          | Some (EvCheck u None) =>
              airport_eqb a (ToAirport u) && isNone (validate.Check u)
          | _ => false
          end
      | _ => true
      end && guarded (Some e) l'
  end.

(** The table after the upsert calls of a trace that succeeded. *)
Fixpoint replay (l : list event) (table : list airports.Airport) : list airports.Airport :=
  match l with
  | [] => table
  | EvUpsert a None :: l' => replay l' (upsertRow table a)
  | _ :: l' => replay l' table
  end.

(** Not a persistence call that failed. *)
Definition persistedOrOther (e : event) : bool :=
  match e with
  | EvUpsert _ (Some _) => false
  | _ => true
  end.

(** The error [cause] returned by [Upsert] wraps an error of the driver. *)
Definition surfaced (store : airports.DB) (cause : error) : Prop :=
  exists c0, cause = "upserting airport: " +++ c0 /\ In (Some c0) (airports.faults store).

(** The exchange ended on a failed persistence call: that call is the
    last one made, and its cause is what the client is told, under
    status 500. *)
Definition stoppedOnFailure (store : airports.DB) (s : World) : Prop :=
  exists pre a cause,
    trace s = pre ++ [EvUpsert a (Some cause);
                      respondedError 500 ("error upserting airport: " +++ cause)] /\
    forallb persistedOrOther pre = true /\
    http.Code (w s) = 500 /\
    http.written (w s) = [web.errorBody ("error upserting airport: " +++ cause)] /\
    surfaced store cause.

(** The fault schedule is only ever consumed from the front. *)
Definition later (d d' : airports.DB) : Prop :=
  exists n, airports.faults d' = skipn n (airports.faults d).

(** If a persistence call among [evs] failed, it is the last of them, and
    it is what [r] reports. *)
Definition failedLast (d : airports.DB) (evs : list event) (r : option handlerError) : Prop :=
  forallb persistedOrOther evs = true \/
  exists pre a cause,
    evs = pre ++ [EvUpsert a (Some cause)] /\
    forallb persistedOrOther pre = true /\
    r = Some (notPersisted cause) /\
    surfaced d cause.

(** *** Submitted arrays *)

Definition decodeRequest (v : value) : option error * UpsertAirportRequest :=
  unmarshalRequest v zeroRequest.

Definition requestOf (v : value) : UpsertAirportRequest := snd (decodeRequest v).

(** The element decodes into a request that passes validation. *)
Definition accepted (v : value) : bool :=
  isNone (fst (decodeRequest v)) && isNone (validate.Check (requestOf v)).

(** None of the next [n] statements is failed by the driver. *)
Definition noFaults (n : nat) (store : airports.DB) : bool :=
  forallb isNone (firstn n (airports.faults store)).

(** The calls made for an accepted element that is persisted. *)
Definition acceptedCalls (v : value) : list event :=
  [EvMore true; EvDecode (None, requestOf v); EvCheck (requestOf v) None;
   EvUpsert (ToAirport (requestOf v)) None].

(** The store after the elements [vs] have been upserted in order. *)
Definition persist (vs : list value) (store : airports.DB) : airports.DB :=
  airports.mkDB
    (fold_left upsertRow (map (fun v => ToAirport (requestOf v)) vs) (airports.rows store))
    (skipn (List.length vs) (airports.faults store)).





(** The record an element is persisted as. *)
Definition airportOf (v : value) : airports.Airport := ToAirport (requestOf v).

(** The violation a required field gives rise to. *)
Definition missing (name v : string) : list validate.FieldError :=
  if validate.blank v
  then [validate.mkFieldError name (name +++ " is a required field")]
  else [].

(** The record carries the code [c]. *)
Definition hasCode (c : string) (r : airports.Airport) : bool :=
  String.eqb (airports.IataCode r) c.

Definition codes (table : list airports.Airport) : list string :=
  map airports.IataCode table.

(** The calls made on the full-buffer path for an accepted element. *)
Definition batchCalls (v : value) : list event :=
  [EvCheck (requestOf v) None; EvUpsert (ToAirport (requestOf v)) None].


Definition isNil {A : Type} (l : list A) : bool :=
  match l with
  | [] => true
  | _ :: _ => false
  end.

End run.

(** ** Sample submissions *)
Module sample.

Import json handlers.

Definition airport (name city country iata : string) : value :=
  JObject [("name", JString name); ("city", JString city);
           ("country", JString country); ("iata_code", JString iata)].

Definition cgh : value := airport "Aeroporto de Congonhas" "Sao Paulo" "Brasil" "CGH".

Definition gru : value := airport "Aeroporto de Guarulhos" "Guarulhos" "Brasil" "GRU".

(** The same code as [cgh] under another name. *)
Definition cghRenamed : value := airport "Congonhas" "Sao Paulo" "Brazil" "CGH".

Definition atl : airports.Airport :=
  airports.mkAirport "Hartsfield Jackson Atlanta Intl" "Atlanta" "United States" "ATL".

Definition emptyArray : list lexeme := [LBeginArray; LEndArray].

(** The body of the handlers' test "missing opening [". *)
Definition objectThenClose : list lexeme := lex cgh ++ [LEndArray].

End sample.

(** ** More to say about an exchange *)
Module more.

Import json handlers.
Local Open Scope go_scope.




(** The element does not decode into a request. *)
Definition undecodable (v : value) : bool := negb (run.isNone (fst (run.decodeRequest v))).

(** A call that returned an error. *)
Definition failedCall (e : event) : bool :=
  match e with
  | EvToken (inl _) | EvDecode (Some _, _) | EvReadAll (Some _) | EvUnmarshal (Some _)
  | EvCheck _ (Some _) | EvUpsert _ (Some _) | EvFlush (Some _) => true
  | _ => false
  end.

(** The latest of the candidates [l] that carries the code [c]. *)
Definition lastWith (c : string) (l : list airports.Airport) : option airports.Airport :=
  find (run.hasCode c) (rev l).

(** The table after the candidates [l] have been upserted in order. *)
Definition upsertAll (l : list airports.Airport) (table : list airports.Airport)
  : list airports.Airport :=
  fold_left run.upsertRow l table.

(** The last call of an exchange is its one write of the response. *)
Definition respondedOnce (s : World) : Prop :=
  exists pre status body,
    trace s = pre ++ [EvRespond status body] /\
    existsb run.isRespond pre = false /\
    http.written (w s) = [body] /\
    (http.Code (w s) = 200 \/ http.Code (w s) = 400 \/ http.Code (w s) = 500).

(** The client is told of success only when no call failed. *)
Definition honest (s : World) : Prop :=
  (http.Code (w s) = 200 /\ http.written (w s) = [run.successBody] /\
   existsb failedCall (trace s) = false) \/
  (http.Code (w s) <> 200 /\ exists m, http.written (w s) = [web.errorBody m]).

(** A record as a client submits it: the object with the members [name],
    [city], [country] and [iata_code], in the order of the fields. *)
Definition encode (a : airports.Airport) : value :=
  JObject [("name", JString (airports.Name a)); ("city", JString (airports.City a));
           ("country", JString (airports.Country a));
           ("iata_code", JString (airports.IataCode a))].

(** The table [table] still holds the codes of [old] at its front, in
    their order. *)
Definition kept (old table : list airports.Airport) : Prop :=
  exists added, run.codes table = run.codes old ++ added.

End more.

(** ** benchmark/bin/json_gen *)
Module json_gen.

Import json.

(** Bash's expansion of [${i}] for a loop counter: its decimal numeral. *)
Definition expand (i : nat) : string :=
  DecimalString.NilEmpty.string_of_uint (Nat.to_uint i).




(** The record the line of airport [i] stands for. *)
Definition airport (i : nat) : airports.Airport :=
  airports.mkAirport ("Airport" +++ expand i) ("City" +++ expand i)
    ("Country" +++ expand i) ("AP" +++ expand i).

End json_gen.

(** * Facts *)

(** ** The scanner reads back what a client serialises *)
Section scanner_facts.

Import json.

Lemma lex_JArray (vs : list value) :
  lex (JArray vs) = LBeginArray :: lexElems true vs ++ [LEndArray].
Proof.
  simpl. f_equal. generalize true.
  induction vs as [|x vs IH]; intros first; simpl; [reflexivity|].
  rewrite IH, <- !app_assoc. reflexivity.
Qed.

Lemma lex_JObject (ms : list (string * value)) :
  lex (JObject ms) = LBeginObject :: lexMembers true ms ++ [LEndObject].
Proof.
  simpl. f_equal. generalize true.
  induction ms as [|[k x] ms IH]; intros first; simpl; [reflexivity|].
  rewrite IH. destruct first; simpl; rewrite <- ?app_assoc; reflexivity.
Qed.

Lemma scan_cons s stack c rest :
  scan s stack (c :: rest) = resume (step s stack c) rest.
Proof. reflexivity. Qed.

(** The first lexeme of a value closes nothing. *)
Lemma lex_head (v : value) :
  exists c l, lex v = c :: l /\ c <> LEndArray /\ c <> LEndObject /\
              c <> LComma /\ c <> LColon /\ c <> LInvalid /\
              forall stack, step stateBeginValueOrEmpty stack c = step stateBeginValue stack c.
Proof.
  destruct v as [|[|]| | | |]; simpl; eexists; eexists;
    (split; [reflexivity|]); repeat split; try discriminate.
Qed.

Lemma scans_elems (vs : list value) :
  Forall scans vs ->
  forall acc stack rest,
    scan stateEndValue (parseArray acc :: stack) (lexElems false vs ++ LEndArray :: rest)
    = resume (endValue (JArray (rev acc ++ vs)) stack) rest.
Proof.
  induction 1 as [|x vs Hx _ IH]; intros acc stack rest.
  - simpl. rewrite app_nil_r. reflexivity.
  - simpl lexElems. simpl app. rewrite scan_cons. simpl resume.
    rewrite <- app_assoc, Hx. simpl resume.
    rewrite IH. simpl rev. rewrite <- app_assoc. reflexivity.
Qed.

Lemma scans_members (ms : list (string * value)) :
  Forall (fun m => scans (snd m)) ms ->
  forall acc stack rest,
    scan stateEndValue (parseObject acc None :: stack)
      (lexMembers false ms ++ LEndObject :: rest)
    = resume (endValue (JObject (rev acc ++ ms)) stack) rest.
Proof.
  induction 1 as [|[k x] ms Hx _ IH]; intros acc stack rest.
  - simpl. rewrite app_nil_r. reflexivity.
  - simpl lexMembers. simpl app. rewrite scan_cons. simpl resume.
    rewrite <- app_assoc. simpl in Hx. rewrite Hx. simpl resume.
    rewrite IH. simpl rev. rewrite <- app_assoc. reflexivity.
Qed.

Lemma scan_lex (v : value) : scans v.
Proof.
  induction v using value_nested_ind; intros stack rest.
  - reflexivity.
  - destruct b; reflexivity.
  - reflexivity.
  - reflexivity.
  - rewrite lex_JArray. simpl app. rewrite scan_cons. simpl resume.
    destruct vs as [|x vs].
    + reflexivity.
    + inversion H as [|? ? Hx Hvs]; subst.
      simpl lexElems. simpl app. rewrite <- !app_assoc.
      destruct (lex_head x) as (c & l & Hl & _ & _ & _ & _ & _ & Hc).
      pose proof (Hx (parseArray [] :: stack)
                    (lexElems false vs ++ [LEndArray] ++ rest)) as Hscan.
      rewrite Hl in *. simpl app in *. rewrite scan_cons in *. rewrite Hc, Hscan.
      simpl resume. apply (scans_elems vs Hvs [x]).
  - rewrite lex_JObject. simpl app. rewrite scan_cons. simpl resume.
    destruct ms as [|[k x] ms].
    + reflexivity.
    + inversion H as [|? ? Hx Hms]; subst. simpl in Hx.
      simpl lexMembers. simpl app. rewrite scan_cons. simpl resume.
      rewrite <- !app_assoc. rewrite Hx. simpl resume.
      apply (scans_members ms Hms [(k, x)]).
Qed.

Lemma readValue_lex (v : value) (rest : list lexeme) :
  readValue (lex v ++ rest) = Scanned v rest.
Proof. unfold readValue. rewrite scan_lex. reflexivity. Qed.

(** A scanned value has used up input. *)
Lemma scan_consumes (input : list lexeme) :
  forall s stack v rest,
    scan s stack input = Scanned v rest -> List.length rest < List.length input.
Proof.
  induction input as [|c input IH]; intros s stack v rest H; simpl in H.
  - discriminate.
  - destruct (step s stack c) as [s' stack'|v'|m].
    + apply IH in H. simpl. lia.
    + inversion H; subst. simpl. lia.
    + discriminate.
Qed.

End scanner_facts.

(** ** The decoder *)
Section decoder_facts.

Import json.

Lemma tokenPrepareForDecode_ok dec dec1 :
  tokenPrepareForDecode dec = (None, dec1) ->
  List.length (buf dec1) <= List.length (buf dec) /\ eof dec1 = eof dec.
Proof.
  unfold tokenPrepareForDecode.
  destruct (tokenState dec); try (intros H; inversion H; subst; split; [lia|reflexivity]);
    destruct (buf dec) as [|[] rest] eqn:E; intros H; inversion H; subst; simpl;
    split; solve [lia | reflexivity].
Qed.

Lemma tokenPrepareForDecode_eof dec :
  eof (snd (tokenPrepareForDecode dec)) = eof dec.
Proof.
  unfold tokenPrepareForDecode.
  destruct (tokenState dec); try reflexivity; destruct (buf dec) as [|[] rest]; reflexivity.
Qed.

Lemma Decode_eof {T : Type} (um : value -> T -> option error * T) v dec :
  eof (snd (Decode um v dec)) = eof dec.
Proof.
  unfold Decode. destruct (err dec); [reflexivity|].
  pose proof (tokenPrepareForDecode_eof dec) as P.
  destruct (tokenPrepareForDecode dec) as [[e|] dec1]; simpl in P; [exact P|].
  destruct (negb _); [exact P|].
  destruct (readValue (buf dec1)); simpl; exact P.
Qed.

(** A decode without error has consumed input. *)
Lemma Decode_consumes {T : Type} (um : value -> T -> option error * T) v dec x dec' :
  Decode um v dec = (None, x, dec') ->
  List.length (buf dec') < List.length (buf dec).
Proof.
  unfold Decode. destruct (err dec); [discriminate|].
  destruct (tokenPrepareForDecode dec) as [[e|] dec1] eqn:P; [discriminate|].
  apply tokenPrepareForDecode_ok in P. destruct P as [P _].
  destruct (negb (tokenValueAllowed (tokenState dec1))); [discriminate|].
  unfold readValue. destruct (scan stateBeginValue [] (buf dec1)) eqn:S; try discriminate.
  intros H. inversion H; subst. simpl. apply scan_consumes in S. lia.
Qed.

(** Decoding the next element of the top-level array. *)
Lemma Decode_inArray {T : Type} (um : value -> T -> option error * T) z
    (first : bool) (v : value) (rest : list lexeme) (e : error) :
  Decode um z (run.inArray first ((if first then [] else [LComma]) ++ lex v ++ rest) e)
  = (um v z, run.inArray false rest e).
Proof.
  unfold Decode, run.inArray. simpl err. cbv iota.
  destruct first; unfold tokenPrepareForDecode; simpl; rewrite readValue_lex; reflexivity.
Qed.

Lemma More_inArray (first : bool) (v : value) (rest : list lexeme) (e : error) :
  More (run.inArray first ((if first then [] else [LComma]) ++ lex v ++ rest) e) = true.
Proof.
  unfold More, run.inArray. simpl buf. destruct first; [|reflexivity].
  destruct (lex_head v) as (c & l & Hl & H1 & H2 & _). rewrite Hl. simpl.
  destruct c; congruence.
Qed.

End decoder_facts.

(** ** The handlers, call by call *)
Section handler_facts.

Import json handlers.
Local Open Scope go_scope.

(** Unfold the monadic glue of a handler. *)
Ltac unfold_go :=
  unfold bind, ret, emit, Token, handlers.More, handlers.Decode, validate_Check,
    upsertAirport, Flush, newHttpResponseController, web_RespondWithError,
    web_Respond, web_RespondAfterFlush, ioReadAll, jsonUnmarshal; simpl.

(** After the check: persist, or report. *)
Lemma attempt_run (u : UpsertAirportRequest) (s : World) :
  exists evs herr d',
    run.attempt u (db s) evs herr d' /\
    forall (A : Type) (dec : Decoder) (k : option handlerError * Decoder -> M A),
      bind (err <- validate_Check u ;;
            match err with
            | Some err => ret (Some (mkHandlerError http.StatusBadRequest err), dec)
            | None =>
                err <- upsertAirport (ToAirport u) ;;
                match err with
                | Some err =>
                    ret (Some (mkHandlerError http.StatusInternalServerError
                                 (errors_Wrap err "error upserting airport")), dec)
                | None => ret (None, dec)
                end
            end) k s
      = k (herr, dec) (mkWorld d' (w s) (flushErr s) (trace s ++ evs)).
Proof.
  destruct (validate.Check u) as [e|] eqn:C.
  - exists [EvCheck u (Some e)], (Some (run.invalid e)), (db s). split.
    + now constructor.
    + intros. unfold_go. rewrite C. reflexivity.
  - destruct (airports.Upsert (db s) (ToAirport u)) as [[cause|] d'] eqn:U.
    + exists [EvCheck u None; EvUpsert (ToAirport u) (Some cause)],
        (Some (run.notPersisted cause)), d'. split.
      * now constructor.
      * intros. unfold_go. rewrite C. simpl. rewrite U. simpl.
        rewrite <- app_assoc. reflexivity.
    + exists [EvCheck u None; EvUpsert (ToAirport u) None], None, d'. split.
      * now constructor.
      * intros. unfold_go. rewrite C. simpl. rewrite U. simpl.
        rewrite <- app_assoc. reflexivity.
Qed.

Lemma bind_ret {A : Type} (c : M A) (s : World) : bind c ret s = c s.
Proof. unfold bind, ret. destruct (c s) as [[a s']|]; reflexivity. Qed.

Lemma processAirport_run (dec : Decoder) (s : World) :
  exists herr dec' d' evs,
    processAirport dec s
    = Some (herr, dec', mkWorld d' (w s) (flushErr s) (trace s ++ evs)) /\
    run.element (db s) evs herr d' /\
    eof dec' = eof dec /\
    (herr = None -> List.length (buf dec') < List.length (buf dec)).
Proof.
  unfold processAirport.
  destruct (json.Decode unmarshalRequest zeroRequest dec) as [[e u] dec1] eqn:D.
  assert (E : eof dec1 = eof dec).
  { pose proof (Decode_eof unmarshalRequest zeroRequest dec) as E.
    rewrite D in E. exact E. }
  destruct e as [e|].
  - exists (Some run.badDecode), dec1, (db s), [EvDecode (Some e, u)].
    split; [|split; [|split]].
    + unfold handlers.Decode, bind, emit, ret. rewrite D. reflexivity.
    + constructor.
    + assumption.
    + discriminate.
  - destruct (attempt_run u
                (mkWorld (db s) (w s) (flushErr s) (trace s ++ [EvDecode (None, u)])))
      as (evs & herr & d' & Hrun & Hk).
    exists herr, dec1, d', (EvDecode (None, u) :: evs). split; [|split; [|split]].
    + unfold handlers.Decode. unfold bind at 1 2. unfold emit at 1. unfold ret at 1.
      rewrite D. simpl fst. cbv iota beta.
      rewrite <- bind_ret. rewrite (Hk _ dec1 ret). unfold ret. simpl.
      rewrite <- app_assoc. reflexivity.
    + constructor. exact Hrun.
    + assumption.
    + intros _. eapply Decode_consumes. exact D.
Qed.

Lemma processAirportsLoop_run (fuel : nat) :
  forall (dec : Decoder) (s : World),
    List.length (buf dec) < fuel ->
    exists herr dec' d' evs,
      processAirportsLoop fuel dec s
      = Some (herr, dec', mkWorld d' (w s) (flushErr s) (trace s ++ evs)) /\
      run.streaming (db s) evs herr d' /\
      eof dec' = eof dec /\
      (herr = None -> json.More dec' = false).
Proof.
  induction fuel as [|fuel IH]; intros dec s Hfuel; [lia|].
  simpl. unfold handlers.More. unfold bind at 1 2. unfold emit at 1. unfold ret at 1.
  destruct (json.More dec) eqn:Hmore.
  - destruct (processAirport_run dec
                (mkWorld (db s) (w s) (flushErr s) (trace s ++ [EvMore true])))
      as (herr & dec1 & d1 & evs & Hp & Hel & He & Hlen).
    simpl in Hp, Hel. unfold bind. rewrite Hp.
    destruct herr as [herr|].
    + exists (Some herr), dec1, d1, (EvMore true :: evs). split; [|split; [|split]].
      * unfold ret. rewrite <- app_assoc. reflexivity.
      * now constructor.
      * assumption.
      * discriminate.
    + specialize (Hlen eq_refl).
      destruct (IH dec1 (mkWorld d1 (w s) (flushErr s) ((trace s ++ [EvMore true]) ++ evs)))
        as (herr & dec2 & d2 & evs' & Hl & Hst & He2 & Hm); [lia|].
      simpl in Hl, Hst. exists herr, dec2, d2, (EvMore true :: evs ++ evs'). split; [|split; [|split]].
      * rewrite Hl. rewrite <- !app_assoc. reflexivity.
      * econstructor; eassumption.
      * congruence.
      * assumption.
  - exists None, dec, (db s), [EvMore false]. split; [|split; [|split]].
    + destruct s; reflexivity.
    + constructor.
    + reflexivity.
    + intros _. assumption.
Qed.

(** The loop always returns: one more than the input's length is fuel enough. *)
Lemma processAirports_run (dec : Decoder) (s : World) :
  exists herr dec' d' evs,
    processAirports dec s
    = Some (herr, dec', mkWorld d' (w s) (flushErr s) (trace s ++ evs)) /\
    run.streaming (db s) evs herr d' /\
    eof dec' = eof dec /\
    (herr = None -> json.More dec' = false).
Proof. unfold processAirports. apply processAirportsLoop_run. lia. Qed.

Lemma readExpectedToken_run (dec : Decoder) (c : ascii) (s : World) :
  exists r,
    readExpectedToken dec c s
    = Some (r, snd (NextToken dec),
            mkWorld (db s) (w s) (flushErr s) (trace s ++ [EvToken (fst (NextToken dec))])) /\
    (r = None /\ fst (NextToken dec) = inr (Delim c) \/
     r <> None /\ fst (NextToken dec) <> inr (Delim c)).
Proof.
  unfold readExpectedToken, Token, bind, emit, ret.
  destruct (NextToken dec) as [[e|[c'|v]] dec']; simpl.
  - eexists. split; [reflexivity|]. right. split; discriminate.
  - destruct (Ascii.eqb_spec c' c) as [->|Hc]; simpl; eexists; (split; [reflexivity|]).
    + left. split; reflexivity.
    + right. split; [discriminate|]. intros H. apply Hc. now inversion H.
  - eexists. split; [reflexivity|]. right. split; discriminate.
Qed.

(** The streaming handler always returns, in one of the five ways. *)
Lemma HandleUpsert_run (r : Request) (store : airports.DB) (ff : option error) :
  exists s,
    HandleUpsert r (newWorld store ff) = Some (tt, s) /\ run.streamed store ff s.
Proof.
  unfold HandleUpsert, newWorld.
  unfold bind at 1. unfold newHttpResponseController at 1.
  unfold bind at 1.
  destruct (readExpectedToken_run (NewDecoder (Body r) (bodyEOF r)) "["
              (mkWorld store http.NewRecorder ff []))
    as (r1 & -> & [[-> H1]|[Hr1 H1]]); simpl db; simpl w; simpl flushErr; simpl trace.
  2:{ destruct r1 as [e1|]; [|congruence].
      eexists. split; [reflexivity|]. now constructor. }
  rewrite H1. simpl app. unfold bind at 1.
  destruct (processAirports_run (snd (NextToken (NewDecoder (Body r) (bodyEOF r))))
              (mkWorld store http.NewRecorder ff [EvToken (inr (Delim "["))]))
    as (herr & dec1 & d1 & evs & -> & Hst & _ & _).
  simpl db in *; simpl w; simpl flushErr; simpl trace.
  destruct herr as [herr|].
  { eexists. split; [reflexivity|]. now apply run.streamed_element_error. }
  unfold bind at 1. simpl app.
  destruct (readExpectedToken_run dec1 "]"
              (mkWorld d1 http.NewRecorder ff (EvToken (inr (Delim "[")) :: evs)))
    as (r2 & -> & [[-> H2]|[Hr2 H2]]); simpl db; simpl w; simpl flushErr; simpl trace.
  2:{ destruct r2 as [e2|]; [|congruence].
      eexists. split; [unfold web_RespondWithError; simpl; rewrite <- app_assoc; reflexivity|].
      now apply run.streamed_bad_close. }
  rewrite H2. unfold bind, Flush. simpl.
  destruct ff as [e|].
  - eexists. split; [unfold web_RespondWithError; simpl; rewrite <- !app_assoc; reflexivity|].
    now apply run.streamed_flush_error.
  - eexists. split; [unfold web_RespondAfterFlush; simpl; rewrite <- !app_assoc; reflexivity|].
    now apply run.streamed_success.
Qed.

Lemma upsertEach_run (us : list UpsertAirportRequest) :
  forall s : World,
    exists evs herr d',
      run.batch us (db s) evs herr d' /\
      upsertEach us s
      = Some (negb (run.isNone herr),
              mkWorld d' (run.batchWriter herr (w s)) (flushErr s)
                (trace s ++ evs ++ run.batchResponse herr)).
Proof.
  induction us as [|u us IH]; intros s.
  - exists [], None, (db s). split; [constructor|].
    simpl. unfold ret. rewrite app_nil_r. destruct s; reflexivity.
  - simpl upsertEach. unfold bind at 1. unfold validate_Check, bind, emit, ret.
    destruct (validate.Check u) as [e|] eqn:C.
    + exists [EvCheck u (Some e)], (Some (run.invalid e)), (db s). split.
      * apply run.batch_stop. now constructor.
      * unfold web_RespondWithError. simpl. rewrite <- app_assoc. reflexivity.
    + unfold upsertAirport. simpl db. simpl w. simpl flushErr. simpl trace.
      destruct (airports.Upsert (db s) (ToAirport u)) as [[cause|] d1] eqn:U.
      * exists [EvCheck u None; EvUpsert (ToAirport u) (Some cause)],
          (Some (run.notPersisted cause)), d1. split.
        -- apply run.batch_stop. now constructor.
        -- unfold web_RespondWithError. simpl. rewrite <- !app_assoc. reflexivity.
      * destruct (IH (mkWorld d1 (w s) (flushErr s)
                        ((trace s ++ [EvCheck u None]) ++ [EvUpsert (ToAirport u) None])))
          as (evs & herr & d2 & Hb & ->).
        exists ([EvCheck u None; EvUpsert (ToAirport u) None] ++ evs), herr, d2. split.
        -- eapply run.batch_next; [|exact Hb]. now constructor.
        -- simpl. rewrite <- !app_assoc. reflexivity.
Qed.

(** The full-buffer handler always returns, in one of the four ways. *)
Lemma HandleNonStreamingUpsert_run (r : Request) (store : airports.DB) (ff : option error) :
  exists s,
    HandleNonStreamingUpsert r (newWorld store ff) = Some (tt, s) /\
    run.buffered r store ff s.
Proof.
  unfold HandleNonStreamingUpsert, newWorld, ioReadAll, jsonUnmarshal.
  unfold bind at 1 2. unfold emit at 1. unfold ret at 1. simpl app.
  destruct (BodyErr r) as [e|] eqn:B.
  { eexists. split; [reflexivity|]. now apply run.buffered_unread. }
  unfold bind at 1 2. unfold emit at 1. unfold ret at 1. simpl app.
  destruct (json.Unmarshal unmarshalRequests (Body r) []) as [[e|] us] eqn:U.
  { eexists. split; [reflexivity|]. now apply run.buffered_malformed with (us := us). }
  simpl fst. unfold bind at 1. simpl app.
  simpl db; simpl w; simpl flushErr; simpl trace.
  destruct (upsertEach_run us (mkWorld store http.NewRecorder ff [EvReadAll None; EvUnmarshal None]))
    as (evs & herr & d' & Hb & ->).
  simpl db in Hb. destruct herr as [herr|]; simpl.
  - eexists. split; [reflexivity|]. now apply run.buffered_element_error with (us := us).
  - eexists. split; [unfold web_Respond; simpl; rewrite app_nil_r; reflexivity|].
    now apply run.buffered_success with (us := us).
Qed.

End handler_facts.

(** ** The opening bracket *)
Section open_facts.

Import json handlers.
Local Open Scope go_scope.

Lemma NextToken_not_open (body : list lexeme) (e : error) :
  hd_error body <> Some LBeginArray ->
  fst (NextToken (NewDecoder body e)) <> inr (Delim "[").
Proof.
  unfold NextToken, NewDecoder. simpl buf.
  destruct body as [|c rest]; simpl; [discriminate|].
  destruct c; simpl; try discriminate. congruence.
Qed.

(** C8.  A body that does not begin with the array-open token (a top-level
    object, a scalar, nothing at all) is answered on the streaming
    endpoint with status 400 and the error "invalid JSON: expected '[' at
    start"; the store is left as it was, and the one read of a token is
    the only call made before the error is written, so nothing of the
    response had been committed before. *)
Theorem missing_open_bracket_rejected
    (r : Request) (store : airports.DB) (ff : option error) :
  hd_error (Body r) <> Some LBeginArray ->
  exists s t,
    HandleUpsert r (newWorld store ff) = Some (tt, s) /\
    trace s = [EvToken t; EvRespond (Some 400)
                            (web.errorBody "invalid JSON: expected '[' at start")] /\
    db s = store /\
    http.Code (w s) = 400 /\
    http.written (w s) = [web.errorBody "invalid JSON: expected '[' at start"].
Proof.
  intros H. apply NextToken_not_open with (e := bodyEOF r) in H.
  unfold HandleUpsert, newWorld.
  unfold bind at 1. unfold newHttpResponseController at 1. unfold bind at 1.
  destruct (readExpectedToken_run (NewDecoder (Body r) (bodyEOF r)) "["
              (mkWorld store http.NewRecorder ff []))
    as (r1 & -> & [[_ H1]|[Hr1 _]]); [contradiction|].
  destruct r1 as [e1|]; [|congruence].
  eexists. eexists. repeat split.
Qed.

Lemma missing_open_bracket_rejected_witness :
  hd_error sample.objectThenClose <> Some LBeginArray /\
  exists s t,
    HandleUpsert (mkRequest sample.objectThenClose None) (newWorld (airports.mkDB [] []) None)
    = Some (tt, s) /\
    trace s = [EvToken t; EvRespond (Some 400)
                            (web.errorBody "invalid JSON: expected '[' at start")] /\
    db s = airports.mkDB [] [] /\
    http.Code (w s) = 400 /\
    http.written (w s) = [web.errorBody "invalid JSON: expected '[' at start"].
Proof.
  split; [discriminate|].
  apply (missing_open_bracket_rejected (mkRequest sample.objectThenClose None)).
  discriminate.
Defined.

(** C10.  The body [null] is no array, yet the full-buffer endpoint
    answers it with status 200 and the success message and persists
    nothing: it unmarshals into the empty slice.  The streaming endpoint
    rejects the same body as missing its opening bracket. *)
Theorem null_body_accepted_by_baseline_only (store : airports.DB) (ff : option error) :
  (exists s,
      HandleNonStreamingUpsert (mkRequest [LNull] None) (newWorld store ff) = Some (tt, s) /\
      trace s = [EvReadAll None; EvUnmarshal None; EvRespond (Some 200) run.successBody] /\
      db s = store /\
      http.Code (w s) = 200 /\
      http.written (w s) = [run.successBody]) /\
  (exists s,
      HandleUpsert (mkRequest [LNull] None) (newWorld store ff) = Some (tt, s) /\
      trace s = [EvToken (inr (Basic JNull)); EvRespond (Some 400) (web.errorBody run.badOpen)] /\
      db s = store /\
      http.Code (w s) = 400 /\
      http.written (w s) = [web.errorBody run.badOpen]).
Proof.
  split; (eexists; split; [cbv; reflexivity|]); simpl; auto.
Qed.

End open_facts.

(** ** The empty array, and the order of close and flush *)
Section commit_facts.

Import json handlers.
Local Open Scope go_scope.

(** C7, as stated, fails when the flush fails: the empty array is then
    answered with status 500. *)
Lemma empty_array_flush_failure :
  exists s,
    HandleUpsert (mkRequest sample.emptyArray None)
      (newWorld (airports.mkDB [] []) (Some "flush error")) = Some (tt, s) /\
    http.Code (w s) = 500 /\
    http.Code (w s) <> 200 /\
    http.written (w s) = [web.errorBody "flush error"].
Proof.
  eexists. split; [cbv; reflexivity|]. simpl. repeat split. discriminate.
Qed.

(** C7, amended.  The empty array makes the streaming endpoint read the
    two brackets and nothing else: no element is decoded, validated or
    upserted and the store is left as it was.  The answer is status 200
    with the success message when the flush succeeds, and status 500 with
    the flush's error when it fails. *)
Theorem empty_array_persists_nothing
    (store : airports.DB) (ff berr : option error) :
  exists s,
    HandleUpsert (mkRequest sample.emptyArray berr) (newWorld store ff) = Some (tt, s) /\
    db s = store /\
    trace s = [run.opened; EvMore false; run.closed; EvFlush ff;
               match ff with
               | None => EvRespond None run.successBody
               | Some e => run.respondedError 500 e
               end] /\
    http.Code (w s) = match ff with None => 200 | Some _ => 500 end /\
    http.written (w s) = [match ff with
                          | None => run.successBody
                          | Some e => web.errorBody e
                          end].
Proof.
  destruct ff as [e|]; (eexists; split; [cbv; reflexivity|]); simpl; auto.
Qed.

(** C2, as stated, fails: on the empty array the closing bracket is read
    before the flush, not after it. *)
Lemma close_read_before_flush :
  exists s,
    HandleUpsert (mkRequest sample.emptyArray None) (newWorld (airports.mkDB [] []) None)
    = Some (tt, s) /\
    trace s = [run.opened; EvMore false; run.closed; EvFlush None;
               EvRespond None run.successBody] /\
    run.precedesb run.isFlush run.isCloseRead (trace s) = false /\
    run.precedesb run.isCloseRead run.isFlush (trace s) = true.
Proof.
  eexists. split; [cbv; reflexivity|]. simpl. auto.
Qed.

Lemma streaming_elementCalls d evs r d' :
  run.streaming d evs r d' -> forallb run.elementCall evs = true.
Proof.
  assert (A : forall u d evs r d', run.attempt u d evs r d' ->
                                   forallb run.elementCall evs = true).
  { intros ? ? ? ? ? H. destruct H; reflexivity. }
  assert (E : forall d evs r d', run.element d evs r d' ->
                                 forallb run.elementCall evs = true).
  { intros ? ? ? ? H. destruct H; simpl; eauto. }
  induction 1; simpl; eauto.
  rewrite forallb_app. erewrite E by eassumption. assumption.
Qed.

Lemma forallb_existsb_false {A : Type} (p q : A -> bool) (l : list A) :
  (forall x, p x = true -> q x = false) ->
  forallb p l = true -> existsb q l = false.
Proof.
  intros Hpq. induction l as [|x l IH]; simpl; [reflexivity|].
  intros H. apply andb_prop in H. destruct H as [Hx Hl].
  rewrite (Hpq x Hx), IH; auto.
Qed.

Lemma forallb_weaken {A : Type} (p q : A -> bool) (l : list A) :
  (forall x, p x = true -> q x = true) ->
  forallb p l = true -> forallb q l = true.
Proof.
  intros Hpq. induction l as [|x l IH]; simpl; [reflexivity|].
  intros H. apply andb_prop in H. destruct H as [Hx Hl].
  rewrite (Hpq x Hx), IH; auto.
Qed.

Lemma precedesb_app_clean (p q : event -> bool) (pre l : list event) :
  existsb p pre = false ->
  run.precedesb p q (pre ++ l) = run.precedesb p q l.
Proof.
  induction pre as [|x pre IH]; simpl; [reflexivity|].
  intros H. apply orb_false_elim in H. destruct H as [Hx Hpre].
  rewrite Hx, IH; auto.
Qed.

Lemma elementCall_not_flush e : run.elementCall e = true -> run.isFlush e = false.
Proof. destruct e; simpl; congruence. Qed.

Lemma elementCall_uncommitted e : run.elementCall e = true -> run.uncommitted e = true.
Proof. destruct e; cbv; congruence. Qed.

(** C2, amended.  On the streaming path the flush does not come before the
    read of the closing bracket but right after it: in every exchange no
    token is read once the response has been flushed, and when a flush
    happens at all, the calls made are some calls that neither flush nor
    write the response, then the successful read of the closing bracket,
    then the flush, then the one write of the response. *)
Theorem flush_follows_closing_bracket
    (r : Request) (store : airports.DB) (ff : option error) :
  exists s,
    HandleUpsert r (newWorld store ff) = Some (tt, s) /\
    run.precedesb run.isFlush run.isToken (trace s) = false /\
    (existsb run.isFlush (trace s) = false \/
     exists pre e status body,
       trace s = pre ++ [run.closed; EvFlush e; EvRespond status body] /\
       forallb run.uncommitted pre = true).
Proof.
  destruct (HandleUpsert_run r store ff) as (s & Hs & Hrun).
  exists s. split; [exact Hs|].
  destruct Hrun as [t Ht|evs herr d' Hst|evs d' t Hst Ht|evs d' e Hst He|evs d' Hst He];
    simpl trace.
  - split; [reflexivity|]. left. reflexivity.
  - apply streaming_elementCalls in Hst.
    pose proof (forallb_existsb_false _ _ _ elementCall_not_flush Hst) as Hf.
    change (run.opened :: evs ++ [run.respondedError (code herr) (msg herr)])
      with ((run.opened :: evs) ++ [run.respondedError (code herr) (msg herr)]).
    split.
    + rewrite precedesb_app_clean; [reflexivity|]. simpl. exact Hf.
    + left. rewrite existsb_app. simpl. rewrite Hf. reflexivity.
  - apply streaming_elementCalls in Hst.
    pose proof (forallb_existsb_false _ _ _ elementCall_not_flush Hst) as Hf.
    change (run.opened :: evs ++ [EvToken t; run.respondedError 400 run.badClose])
      with ((run.opened :: evs) ++ [EvToken t; run.respondedError 400 run.badClose]).
    split.
    + rewrite precedesb_app_clean; [reflexivity|]. simpl. exact Hf.
    + left. rewrite existsb_app. simpl. rewrite Hf. reflexivity.
  - apply streaming_elementCalls in Hst.
    pose proof (forallb_existsb_false _ _ _ elementCall_not_flush Hst) as Hf.
    change (run.opened :: evs ++ [run.closed; EvFlush (Some e); run.respondedError 500 e])
      with ((run.opened :: evs) ++ [run.closed; EvFlush (Some e); run.respondedError 500 e]).
    split.
    + rewrite precedesb_app_clean; [reflexivity|]. simpl. exact Hf.
    + right. exists (run.opened :: evs), (Some e), (Some 500), (web.errorBody e).
      split; [reflexivity|]. simpl.
      apply (forallb_weaken _ _ _ elementCall_uncommitted Hst).
  - apply streaming_elementCalls in Hst.
    pose proof (forallb_existsb_false _ _ _ elementCall_not_flush Hst) as Hf.
    change (run.opened :: evs ++ [run.closed; EvFlush None; EvRespond None run.successBody])
      with ((run.opened :: evs) ++ [run.closed; EvFlush None; EvRespond None run.successBody]).
    split.
    + rewrite precedesb_app_clean; [reflexivity|]. simpl. exact Hf.
    + right. exists (run.opened :: evs), None, None, run.successBody.
      split; [reflexivity|]. simpl.
      apply (forallb_weaken _ _ _ elementCall_uncommitted Hst).
Qed.

End commit_facts.

(** ** The store changes through validated upserts only *)
Section persistence_facts.

Import json handlers.
Local Open Scope go_scope.

Lemma Upsert_cases (d : airports.DB) (a : airports.Airport) :
  (exists c0,
      airports.faults d = Some c0 :: tl (airports.faults d) /\
      airports.Upsert d a
      = (Some ("upserting airport: " +++ c0),
         airports.mkDB (airports.rows d) (tl (airports.faults d)))) \/
  (hd None (airports.faults d) = None /\
   airports.Upsert d a
   = (None, airports.mkDB (run.upsertRow (airports.rows d) a) (tl (airports.faults d)))).
Proof.
  unfold airports.Upsert, airports.ExecContext.
  destruct (airports.faults d) as [|[c0|] fs]; simpl.
  - right. split; reflexivity.
  - left. exists c0. split; reflexivity.
  - right. split; reflexivity.
Qed.

Lemma airport_eqb_refl (a : airports.Airport) : run.airport_eqb a a = true.
Proof. unfold run.airport_eqb. rewrite !String.eqb_refl. reflexivity. Qed.

Lemma guarded_app (l1 l2 : list event) :
  forall p,
    run.guarded p l1 = true ->
    (forall q, run.guarded q l2 = true) ->
    run.guarded p (l1 ++ l2) = true.
Proof.
  induction l1 as [|e l1 IH]; intros p H1 H2; simpl in *; [apply H2|].
  apply andb_prop in H1. destruct H1 as [He Hl]. rewrite He. simpl. apply IH; assumption.
Qed.

Lemma replay_app (l1 l2 : list event) :
  forall table, run.replay (l1 ++ l2) table = run.replay l2 (run.replay l1 table).
Proof.
  induction l1 as [|e l1 IH]; intros table; simpl; [reflexivity|].
  destruct e as [| | | | | |a [c|]| |]; apply IH.
Qed.

(** What one attempt leaves behind: a guarded trace, and a table changed
    by its successful upsert only. *)
Lemma attempt_sound u d evs r d' :
  run.attempt u d evs r d' ->
  (forall p, run.guarded p evs = true) /\
  airports.rows d' = run.replay evs (airports.rows d).
Proof.
  intros H. destruct H as [e C|cause d' C U|d' C U].
  - split; reflexivity.
  - split.
    + intros p. simpl. rewrite airport_eqb_refl, C. reflexivity.
    + destruct (Upsert_cases d (ToAirport u)) as [(c0 & _ & E)|[_ E]];
        rewrite E in U; inversion U; reflexivity.
  - split.
    + intros p. simpl. rewrite airport_eqb_refl, C. reflexivity.
    + destruct (Upsert_cases d (ToAirport u)) as [(c0 & _ & E)|[_ E]];
        rewrite E in U; inversion U; reflexivity.
Qed.

Lemma element_sound d evs r d' :
  run.element d evs r d' ->
  (forall p, run.guarded p evs = true) /\
  airports.rows d' = run.replay evs (airports.rows d).
Proof.
  intros H. destruct H as [e u|u evs r d' H].
  - split; reflexivity.
  - apply attempt_sound in H. destruct H as [G R]. split.
    + intros p. simpl. apply G.
    + simpl. exact R.
Qed.

Lemma streaming_sound d evs r d' :
  run.streaming d evs r d' ->
  (forall p, run.guarded p evs = true) /\
  airports.rows d' = run.replay evs (airports.rows d).
Proof.
  induction 1 as [d|d evs herr d' H|d evs d' evs' r d'' H _ [G' R']].
  - split; reflexivity.
  - apply element_sound in H. destruct H as [G R]. split.
    + intros p. simpl. apply G.
    + simpl. exact R.
  - apply element_sound in H. destruct H as [G R]. split.
    + intros p. simpl. apply guarded_app; [apply G|apply G'].
    + simpl. rewrite replay_app, <- R. exact R'.
Qed.

Lemma batch_sound us d evs r d' :
  run.batch us d evs r d' ->
  (forall p, run.guarded p evs = true) /\
  airports.rows d' = run.replay evs (airports.rows d).
Proof.
  induction 1 as [d|u us d evs herr d' H|u us d evs d' evs' r d'' H _ [G' R']].
  - split; reflexivity.
  - apply attempt_sound in H. exact H.
  - apply attempt_sound in H. destruct H as [G R]. split.
    + intros p. apply guarded_app; [apply G|apply G'].
    + rewrite replay_app, <- R. exact R'.
Qed.

Lemma guarded_snoc (l suffix : list event) :
  (forall p, run.guarded p l = true) ->
  existsb run.isUpsert suffix = false ->
  forall p, run.guarded p (l ++ suffix) = true.
Proof.
  intros G Hs p. apply guarded_app; [apply G|].
  clear -Hs. induction suffix as [|e suffix IH]; intros q; simpl in *; [reflexivity|].
  apply orb_false_elim in Hs. destruct Hs as [He Hs].
  rewrite (IH Hs). destruct e; simpl in *; try reflexivity. discriminate.
Qed.

(** C4.  On both paths every upsert call is made right after a check of
    the very request it persists, and that check returned no violation;
    and the table the exchange leaves is the table it found with the
    successful upsert calls applied in order, nothing else.  So no
    exchange persists a record that failed validation. *)
Theorem persisted_only_if_validated
    (r : Request) (store : airports.DB) (ff : option error) :
  (exists s,
      HandleUpsert r (newWorld store ff) = Some (tt, s) /\
      run.guarded None (trace s) = true /\
      airports.rows (db s) = run.replay (trace s) (airports.rows store)) /\
  (exists s,
      HandleNonStreamingUpsert r (newWorld store ff) = Some (tt, s) /\
      run.guarded None (trace s) = true /\
      airports.rows (db s) = run.replay (trace s) (airports.rows store)).
Proof.
  split.
  - destruct (HandleUpsert_run r store ff) as (s & Hs & Hrun).
    exists s. split; [exact Hs|].
    destruct Hrun as [t Ht|evs herr d' Hst|evs d' t Hst Ht|evs d' e Hst He|evs d' Hst He];
      simpl trace; simpl db;
      try (apply streaming_sound in Hst; destruct Hst as [G R]).
    + split; reflexivity.
    + split.
      * simpl. apply guarded_snoc; [apply G|reflexivity].
      * simpl. rewrite replay_app. simpl. exact R.
    + split.
      * simpl. apply guarded_snoc; [apply G|reflexivity].
      * simpl. rewrite replay_app. simpl. exact R.
    + split.
      * simpl. apply guarded_snoc; [apply G|reflexivity].
      * simpl. rewrite replay_app. simpl. exact R.
    + split.
      * simpl. apply guarded_snoc; [apply G|reflexivity].
      * simpl. rewrite replay_app. simpl. exact R.
  - destruct (HandleNonStreamingUpsert_run r store ff) as (s & Hs & Hrun).
    exists s. split; [exact Hs|].
    destruct Hrun as [e B|e us B U|us evs herr d' B U Hb|us evs d' B U Hb];
      simpl trace; simpl db;
      try (apply batch_sound in Hb; destruct Hb as [G R]).
    + split; reflexivity.
    + split; reflexivity.
    + split.
      * simpl. apply guarded_snoc; [apply G|reflexivity].
      * simpl. rewrite replay_app. simpl. exact R.
    + split.
      * simpl. apply guarded_snoc; [apply G|reflexivity].
      * simpl. rewrite replay_app. simpl. exact R.
Qed.

End persistence_facts.

(** ** A failed persistence call ends the exchange *)
Section failfast_facts.

Import json handlers.
Local Open Scope go_scope.

Lemma later_refl d : run.later d d.
Proof. exists 0. reflexivity. Qed.

Lemma skipn_tl {A : Type} (n : nat) (l : list A) : skipn n (tl l) = skipn (S n) l.
Proof. destruct l; [destruct n|]; reflexivity. Qed.

Lemma later_trans d d' d'' : run.later d d' -> run.later d' d'' -> run.later d d''.
Proof.
  intros [n Hn] [m Hm]. exists (n + m). rewrite Hm, Hn.
  rewrite skipn_skipn. f_equal. lia.
Qed.

Lemma surfaced_later d d' cause : run.later d d' -> run.surfaced d' cause -> run.surfaced d cause.
Proof.
  intros [n Hn] (c0 & Hc & Hin). exists c0. split; [exact Hc|].
  rewrite Hn in Hin. revert Hin. generalize (airports.faults d). clear.
  induction n as [|n IH]; intros l H; [exact H|].
  destruct l as [|x l]; [exact H|]. right. apply IH. exact H.
Qed.

Lemma attempt_failfast u d evs r d' :
  run.attempt u d evs r d' -> run.later d d' /\ run.failedLast d evs r.
Proof.
  intros H. destruct H as [e C|cause d' C U|d' C U].
  - split; [apply later_refl|]. left. reflexivity.
  - destruct (Upsert_cases d (ToAirport u)) as [(c0 & F & E)|[_ E]];
      rewrite E in U; inversion U; subst. split.
    + exists 1. simpl. destruct (airports.faults d); reflexivity.
    + right. exists [EvCheck u None], (ToAirport u), ("upserting airport: " +++ c0).
      repeat split. exists c0. split; [reflexivity|]. rewrite F. left. reflexivity.
  - destruct (Upsert_cases d (ToAirport u)) as [(c0 & F & E)|[_ E]];
      rewrite E in U; inversion U; subst. split.
    + exists 1. simpl. destruct (airports.faults d); reflexivity.
    + left. reflexivity.
Qed.

Lemma failedLast_cons d e evs r :
  run.persistedOrOther e = true -> run.failedLast d evs r -> run.failedLast d (e :: evs) r.
Proof.
  intros He [H|(pre & a & cause & -> & Hpre & Hr & Hs)].
  - left. simpl. rewrite He. exact H.
  - right. exists (e :: pre), a, cause. repeat split; try assumption.
    simpl. rewrite He. exact Hpre.
Qed.

Lemma failedLast_none d evs : run.failedLast d evs None -> forallb run.persistedOrOther evs = true.
Proof. intros [H|(pre & a & cause & _ & _ & Hr & _)]; [exact H|discriminate]. Qed.

Lemma failedLast_app d d' evs evs' r :
  run.failedLast d evs None -> run.later d d' -> run.failedLast d' evs' r -> run.failedLast d (evs ++ evs') r.
Proof.
  intros H L [H'|(pre & a & cause & -> & Hpre & Hr & Hs)]; apply failedLast_none in H.
  - left. rewrite forallb_app, H, H'. reflexivity.
  - right. exists (evs ++ pre), a, cause. rewrite <- app_assoc. repeat split; try assumption.
    + rewrite forallb_app, H, Hpre. reflexivity.
    + eapply surfaced_later; eassumption.
Qed.

Lemma element_failfast d evs r d' :
  run.element d evs r d' -> run.later d d' /\ run.failedLast d evs r.
Proof.
  intros H. destruct H as [e u|u evs r d' H].
  - split; [apply later_refl|]. left. reflexivity.
  - apply attempt_failfast in H. destruct H as [L F]. split; [exact L|].
    apply failedLast_cons; [reflexivity|exact F].
Qed.

Lemma streaming_failfast d evs r d' :
  run.streaming d evs r d' -> run.later d d' /\ run.failedLast d evs r.
Proof.
  induction 1 as [d|d evs herr d' H|d evs d' evs' r d'' H _ [L' F']].
  - split; [apply later_refl|]. left. reflexivity.
  - apply element_failfast in H. destruct H as [L F]. split; [exact L|].
    apply failedLast_cons; [reflexivity|exact F].
  - apply element_failfast in H. destruct H as [L F]. split.
    + eapply later_trans; eassumption.
    + apply failedLast_cons; [reflexivity|]. eapply failedLast_app; eassumption.
Qed.

Lemma batch_failfast us d evs r d' :
  run.batch us d evs r d' -> run.later d d' /\ run.failedLast d evs r.
Proof.
  induction 1 as [d|u us d evs herr d' H|u us d evs d' evs' r d'' H _ [L' F']].
  - split; [apply later_refl|]. left. reflexivity.
  - apply attempt_failfast in H. exact H.
  - apply attempt_failfast in H. destruct H as [L F]. split.
    + eapply later_trans; eassumption.
    + eapply failedLast_app; eassumption.
Qed.

(** An exchange that answers right after its element calls [evs], the
    calls [pre] before them being free of persistence calls. *)
Lemma failfast_exchange (store : airports.DB) (s : World) pre evs herr :
  run.failedLast store evs (Some herr) ->
  forallb run.persistedOrOther pre = true ->
  trace s = pre ++ evs ++ [run.respondedError (code herr) (msg herr)] ->
  w s = web.RespondWithError (code herr) (msg herr) http.NewRecorder ->
  forallb run.persistedOrOther (trace s) = true \/ run.stoppedOnFailure store s.
Proof.
  intros [H|(pre' & a & cause & -> & Hpre & Hr & Hs)] Hp Ht Hw.
  - left. rewrite Ht, !forallb_app, Hp, H. reflexivity.
  - right. inversion Hr; subst herr. exists (pre ++ pre'), a, cause.
    rewrite Ht, Hw. rewrite <- !app_assoc. repeat split; try assumption.
    rewrite forallb_app, Hp, Hpre. reflexivity.
Qed.

(** C9.  On both paths, either no persistence call of the exchange
    failed, or the exchange ended on the first one that did: the failed
    call is the last call before the response, so it is not retried and
    no run.later element is touched; the response has status 500 and the
    message "error upserting airport: " followed by the cause the call
    returned, and that cause is [Upsert]'s wrapping of an error of the
    driver. *)
Theorem persistence_failure_reported_and_final
    (r : Request) (store : airports.DB) (ff : option error) :
  (exists s,
      HandleUpsert r (newWorld store ff) = Some (tt, s) /\
      (forallb run.persistedOrOther (trace s) = true \/ run.stoppedOnFailure store s)) /\
  (exists s,
      HandleNonStreamingUpsert r (newWorld store ff) = Some (tt, s) /\
      (forallb run.persistedOrOther (trace s) = true \/ run.stoppedOnFailure store s)).
Proof.
  split.
  - destruct (HandleUpsert_run r store ff) as (s & Hs & Hrun).
    exists s. split; [exact Hs|].
    destruct Hrun as [t Ht|evs herr d' Hst|evs d' t Hst Ht|evs d' e Hst He|evs d' Hst He];
      try (apply streaming_failfast in Hst; destruct Hst as [_ F]).
    + left. reflexivity.
    + eapply (failfast_exchange store _ [run.opened] evs); try reflexivity. exact F.
    + left. apply failedLast_none in F. simpl. rewrite forallb_app, F. reflexivity.
    + left. apply failedLast_none in F. simpl. rewrite forallb_app, F. reflexivity.
    + left. apply failedLast_none in F. simpl. rewrite forallb_app, F. reflexivity.
  - destruct (HandleNonStreamingUpsert_run r store ff) as (s & Hs & Hrun).
    exists s. split; [exact Hs|].
    destruct Hrun as [e B|e us B U|us evs herr d' B U Hb|us evs d' B U Hb];
      try (apply batch_failfast in Hb; destruct Hb as [_ F]).
    + left. reflexivity.
    + left. reflexivity.
    + eapply (failfast_exchange store _ [EvReadAll None; EvUnmarshal None] evs);
        try reflexivity. exact F.
    + left. apply failedLast_none in F. simpl. rewrite forallb_app, F. reflexivity.
Qed.

End failfast_facts.

(** ** Arrays of values on the streaming path *)
Section array_facts.

Import json handlers.
Local Open Scope go_scope.

Lemma lexElems_cons first v vs :
  lexElems first (v :: vs) = (if first then [] else [LComma]) ++ lex v ++ lexElems false vs.
Proof. reflexivity. Qed.


Lemma lex_length (v : value) : 1 <= List.length (lex v).
Proof. destruct (lex_head v) as (c & l & -> & _). simpl. lia. Qed.

Lemma noFaults_S n d :
  run.noFaults (S n) d = true ->
  hd None (airports.faults d) = None /\
  forall rows', run.noFaults n (airports.mkDB rows' (tl (airports.faults d))) = true.
Proof.
  unfold run.noFaults. destruct (airports.faults d) as [|[c|] fs]; simpl.
  - intros _. split; [reflexivity|]. intros _. destruct n; reflexivity.
  - discriminate.
  - intros H. split; [reflexivity|]. intros _. exact H.
Qed.

Lemma Upsert_ok d a :
  hd None (airports.faults d) = None ->
  airports.Upsert d a
  = (None, airports.mkDB (run.upsertRow (airports.rows d) a) (tl (airports.faults d))).
Proof.
  intros H. destruct (Upsert_cases d a) as [(c0 & F & _)|[_ E]]; [|exact E].
  rewrite F in H. discriminate.
Qed.


Lemma accepted_inv v :
  run.accepted v = true ->
  run.decodeRequest v = (None, run.requestOf v) /\ validate.Check (run.requestOf v) = None.
Proof.
  unfold run.accepted, run.requestOf. destruct (run.decodeRequest v) as [[e|] u]; simpl.
  - discriminate.
  - destruct (validate.Check u); [discriminate|]. split; reflexivity.
Qed.

(** One accepted element, persisted. *)
Lemma processAirport_accepted first v rest e d wr ff t :
  run.accepted v = true ->
  hd None (airports.faults d) = None ->
  processAirport (run.inArray first ((if first then [] else [LComma]) ++ lex v ++ rest) e) (mkWorld d wr ff t)
  = Some (None, run.inArray false rest e,
          mkWorld (airports.mkDB (run.upsertRow (airports.rows d) (ToAirport (run.requestOf v)))
                     (tl (airports.faults d)))
            wr ff
            (t ++ [EvDecode (None, run.requestOf v); EvCheck (run.requestOf v) None;
                   EvUpsert (ToAirport (run.requestOf v)) None])).
Proof.
  intros Ha Hf. apply accepted_inv in Ha. destruct Ha as [Hd Hc].
  unfold processAirport, handlers.Decode. rewrite Decode_inArray.
  fold (run.decodeRequest v). rewrite Hd.
  unfold bind, emit, ret, validate_Check, upsertAirport. simpl.
  rewrite Hc. simpl. rewrite (Upsert_ok _ _ Hf). rewrite <- !app_assoc. reflexivity.
Qed.

(** The loop over a prefix of accepted elements. *)
Lemma processAirportsLoop_accepted (good : list value) :
  forall first tail e d wr ff t fuel,
    forallb run.accepted good = true ->
    run.noFaults (List.length good) d = true ->
    List.length (lexElems first good ++ tail) < fuel ->
    processAirportsLoop fuel (run.inArray first (lexElems first good ++ tail) e)
      (mkWorld d wr ff t)
    = processAirportsLoop (fuel - List.length good)
        (run.inArray (first && run.isNil good) tail e)
        (mkWorld (run.persist good d) wr ff (t ++ flat_map run.acceptedCalls good)).
Proof.
  induction good as [|v good IH]; intros first tail e d wr ff t fuel Ha Hn Hfuel.
  - simpl. rewrite andb_true_r, app_nil_r, Nat.sub_0_r.
    unfold run.persist. simpl. destruct d; reflexivity.
  - simpl in Ha. apply andb_prop in Ha. destruct Ha as [Hv Ha].
    apply noFaults_S in Hn. destruct Hn as [Hhd Hn].
    destruct fuel as [|fuel]; [lia|].
    rewrite lexElems_cons, <- !app_assoc in *.
    simpl processAirportsLoop at 1.
    unfold handlers.More. unfold bind at 1 2. unfold emit at 1. unfold ret at 1.
    rewrite More_inArray. simpl db; simpl w; simpl flushErr; simpl trace.
    unfold bind at 1.
    rewrite (processAirport_accepted first v (lexElems false good ++ tail) e d wr ff
               (t ++ [EvMore true]) Hv Hhd).
    rewrite IH; try assumption.
    + simpl run.isNil. rewrite andb_false_r. simpl List.length. simpl Nat.sub.
      f_equal. unfold run.persist. simpl. rewrite <- !app_assoc. simpl.
      f_equal. f_equal. destruct (airports.faults d); [destruct (List.length good)|];
        reflexivity.
    + apply Hn.
    + rewrite !length_app in Hfuel. pose proof (lex_length v). rewrite length_app. lia.
Qed.

Lemma lexElems_length first (vs : list value) :
  List.length vs <= List.length (lexElems first vs).
Proof.
  revert first. induction vs as [|v vs IH]; intros first; simpl; [lia|].
  rewrite !length_app. pose proof (lex_length v). specialize (IH false). lia.
Qed.


Lemma readExpectedToken_open (input : list lexeme) (e : error) (s : World) :
  readExpectedToken (NewDecoder (LBeginArray :: input) e) "[" s
  = Some (None, run.inArray true input e,
          mkWorld (db s) (w s) (flushErr s) (trace s ++ [run.opened])).
Proof. reflexivity. Qed.

Lemma readExpectedToken_close first (rest : list lexeme) (e : error) (s : World) :
  readExpectedToken (run.inArray first (LEndArray :: rest) e) "]" s
  = Some (None, mkDecoder rest e None tokenTopValue [],
          mkWorld (db s) (w s) (flushErr s) (trace s ++ [run.closed])).
Proof. destruct first; reflexivity. Qed.



Lemma unmarshalElements_accepted (vs : list value) :
  forallb run.accepted vs = true ->
  unmarshalElements vs None = (None, map run.requestOf vs).
Proof.
  induction vs as [|v vs IH]; intros Ha; simpl in *; [reflexivity|].
  apply andb_prop in Ha. destruct Ha as [Hv Ha]. apply accepted_inv in Hv.
  destruct Hv as [Hd _]. unfold run.decodeRequest in Hd. rewrite Hd. simpl.
  rewrite (IH Ha). reflexivity.
Qed.

Lemma Unmarshal_accepted (vs : list value) :
  forallb run.accepted vs = true ->
  json.Unmarshal unmarshalRequests (lex (JArray vs)) [] = (None, map run.requestOf vs).
Proof.
  intros Ha. unfold json.Unmarshal.
  rewrite <- (app_nil_r (lex (JArray vs))), readValue_lex.
  simpl. apply unmarshalElements_accepted. exact Ha.
Qed.

Lemma upsertEach_accepted (vs : list value) :
  forall d wr ff t,
    forallb run.accepted vs = true ->
    run.noFaults (List.length vs) d = true ->
    upsertEach (map run.requestOf vs) (mkWorld d wr ff t)
    = Some (false, mkWorld (run.persist vs d) wr ff (t ++ flat_map run.batchCalls vs)).
Proof.
  induction vs as [|v vs IH]; intros d wr ff t Ha Hn.
  - simpl. unfold ret, run.persist. simpl. rewrite app_nil_r. destruct d; reflexivity.
  - simpl in Ha. apply andb_prop in Ha. destruct Ha as [Hv Ha].
    apply accepted_inv in Hv. destruct Hv as [_ Hc].
    apply noFaults_S in Hn. destruct Hn as [Hhd Hn].
    simpl map. simpl upsertEach.
    unfold bind at 1. unfold validate_Check, bind, emit, ret. rewrite Hc.
    unfold upsertAirport. simpl db; simpl w; simpl flushErr; simpl trace.
    rewrite (Upsert_ok _ _ Hhd). rewrite IH; [|exact Ha|apply Hn].
    unfold run.persist. simpl. rewrite <- !app_assoc. simpl.
    do 3 f_equal. destruct (airports.faults d); [destruct (List.length vs)|]; reflexivity.
Qed.


(** An array of accepted elements on the streaming endpoint. *)
Lemma HandleUpsert_accepted (vs : list value) (store : airports.DB) (ff berr : option error) :
  forallb run.accepted vs = true ->
  run.noFaults (List.length vs) store = true ->
  HandleUpsert (mkRequest (lex (JArray vs)) berr) (newWorld store ff)
  = Some (tt, mkWorld (run.persist vs store)
                (match ff with
                 | None => http.mkResponseWriter (Some 200) [run.successBody]
                 | Some e => http.mkResponseWriter (Some 500) [web.errorBody e]
                 end) ff
                (run.opened :: flat_map run.acceptedCalls vs
                   ++ [EvMore false; run.closed; EvFlush ff;
                       match ff with
                       | None => EvRespond None run.successBody
                       | Some e => run.respondedError 500 e
                       end])).
Proof.
  intros Ha Hn.
  unfold HandleUpsert, newWorld. rewrite lex_JArray.
  unfold bind at 1. unfold newHttpResponseController at 1. simpl Body.
  unfold bind at 1. rewrite readExpectedToken_open.
  simpl db; simpl w; simpl flushErr; simpl trace.
  unfold bind at 1. unfold processAirports. simpl buf.
  rewrite processAirportsLoop_accepted; try assumption; [|lia].
  rewrite Nat.sub_succ_l.
  2:{ rewrite length_app. pose proof (lexElems_length true vs). lia. }
  simpl processAirportsLoop.
  unfold handlers.More. unfold bind at 1 2. unfold emit at 1. unfold ret at 1.
  replace (json.More (run.inArray (true && run.isNil vs) [LEndArray] (bodyEOF _)))
    with false by (destruct (true && run.isNil vs); reflexivity).
  unfold ret at 1. unfold bind at 1. rewrite readExpectedToken_close.
  simpl. unfold bind, Flush, web_RespondAfterFlush, web_RespondWithError. simpl.
  destruct ff; simpl; rewrite <- !app_assoc; reflexivity.
Qed.

(** An array of accepted elements on the full-buffer endpoint. *)
Lemma HandleNonStreamingUpsert_accepted (vs : list value) (store : airports.DB)
    (ff : option error) :
  forallb run.accepted vs = true ->
  run.noFaults (List.length vs) store = true ->
  HandleNonStreamingUpsert (mkRequest (lex (JArray vs)) None) (newWorld store ff)
  = Some (tt, mkWorld (run.persist vs store)
                (http.mkResponseWriter (Some 200) [run.successBody]) ff
                (EvReadAll None :: EvUnmarshal None :: flat_map run.batchCalls vs
                   ++ [EvRespond (Some 200) run.successBody])).
Proof.
  intros Ha Hn.
  pose proof (Unmarshal_accepted vs Ha) as HU. revert HU.
  generalize (lex (JArray vs)). intros body HU.
  unfold HandleNonStreamingUpsert, newWorld, ioReadAll, jsonUnmarshal, bind, emit, ret.
  simpl. rewrite HU. simpl. rewrite upsertEach_accepted; try assumption.
  unfold web_Respond. simpl. reflexivity.
Qed.



End array_facts.

(** ** The upsert statement *)
Section upsert_facts.

Import json handlers.
Local Open Scope go_scope.

Lemma filter_hasCode_absent c (table : list airports.Airport) :
  ~ In c (run.codes table) -> filter (run.hasCode c) table = [].
Proof.
  induction table as [|r table IH]; simpl; intros H; [reflexivity|].
  unfold run.hasCode at 1. destruct (String.eqb_spec (airports.IataCode r) c) as [E|E].
  - exfalso. apply H. left. exact E.
  - apply IH. intros Hin. apply H. right. exact Hin.
Qed.

Lemma existsb_hasCode_absent c (table : list airports.Airport) :
  existsb (run.hasCode c) table = false -> ~ In c (run.codes table).
Proof.
  induction table as [|r table IH]; simpl; intros H; [tauto|].
  apply orb_false_elim in H. destruct H as [Hr Ht]. unfold run.hasCode in Hr.
  apply String.eqb_neq in Hr. intros [E|Hin]; [contradiction|]. exact (IH Ht Hin).
Qed.

(** The codes of the table after the statement: unchanged on a conflict,
    one more at the end otherwise. *)
Lemma upsertRow_codes (table : list airports.Airport) (a : airports.Airport) :
  run.codes (run.upsertRow table a)
  = if existsb (run.hasCode (airports.IataCode a)) table
    then run.codes table
    else run.codes table ++ [airports.IataCode a].
Proof.
  unfold run.upsertRow. induction table as [|r table IH]; simpl; [reflexivity|].
  unfold run.hasCode at 1.
  destruct (String.eqb (airports.IataCode r) (airports.IataCode a)) eqn:E; simpl.
  - reflexivity.
  - rewrite IH. destruct (existsb _ table); reflexivity.
Qed.

Lemma upsertRow_unique (table : list airports.Airport) (a : airports.Airport) :
  NoDup (run.codes table) -> NoDup (run.codes (run.upsertRow table a)).
Proof.
  intros H. rewrite upsertRow_codes.
  destruct (existsb _ table) eqn:E; [exact H|].
  apply existsb_hasCode_absent in E.
  apply NoDup_rev in H. rewrite <- (rev_involutive (_ ++ _)), rev_app_distr.
  apply NoDup_rev. simpl. constructor; [|exact H].
  rewrite <- in_rev. exact E.
Qed.

(** After the statement exactly one record carries the code, and it is
    the submitted one. *)
Lemma upsertRow_single (table : list airports.Airport) (a : airports.Airport) :
  NoDup (run.codes table) ->
  filter (run.hasCode (airports.IataCode a)) (run.upsertRow table a) = [a].
Proof.
  unfold run.upsertRow.
  induction table as [|r table IH]; simpl; intros H.
  - unfold run.hasCode. simpl. rewrite String.eqb_refl. destruct a; reflexivity.
  - inversion H as [|? ? Hr Ht]; subst.
    destruct (String.eqb_spec (airports.IataCode r) (airports.IataCode a)) as [E|E]; simpl.
    + unfold run.hasCode at 1. simpl. rewrite E, String.eqb_refl.
      rewrite filter_hasCode_absent by (rewrite <- E; exact Hr).
      destruct a; reflexivity.
    + unfold run.hasCode at 1. apply String.eqb_neq in E. rewrite E. apply IH. exact Ht.
Qed.



Lemma upsertRow_present (table : list airports.Airport) (a : airports.Airport) :
  existsb (run.hasCode (airports.IataCode a)) (run.upsertRow table a) = true.
Proof.
  unfold run.upsertRow. induction table as [|r table IH]; simpl.
  - unfold run.hasCode. simpl. rewrite String.eqb_refl. reflexivity.
  - destruct (String.eqb (airports.IataCode r) (airports.IataCode a)) eqn:E; simpl.
    + unfold run.hasCode at 1. simpl. rewrite E. reflexivity.
    + rewrite IH. apply orb_true_r.
Qed.




End upsert_facts.

(** ** Validation *)
Section validate_facts.

Import json handlers.

Lemma unmarshalMembers_app (ms1 ms2 : list (string * value)) :
  forall saved u,
    unmarshalMembers (ms1 ++ ms2) saved u
    = unmarshalMembers ms2 (fst (unmarshalMembers ms1 saved u))
        (snd (unmarshalMembers ms1 saved u)).
Proof.
  induction ms1 as [|m ms1 IH]; intros saved u; simpl; [reflexivity|].
  destruct (unmarshalMember m u) as [e u']. apply IH.
Qed.

Lemma firstError_None saved : firstError saved None = saved.
Proof. destruct saved; reflexivity. Qed.

(** C6.  Validation asks for name, city, country and iata_code, each
    counting as missing when it holds nothing but white space; its
    violations are those of the four fields in that fixed order, whichever
    of them are missing; it reports no error exactly when none of the four
    is missing; and a [geoloc] member, whatever it holds, changes nothing
    about the request that is validated, so geolocation is never required. *)
Theorem required_fields_validated (u : UpsertAirportRequest) :
  validate.violations (validate.requiredFields u)
  = run.missing "name" (Name u) ++ run.missing "city" (City u)
    ++ run.missing "country" (Country u) ++ run.missing "iata_code" (IataCode u) /\
  run.isNone (validate.Check u)
  = negb (validate.blank (Name u)) && negb (validate.blank (City u))
    && negb (validate.blank (Country u)) && negb (validate.blank (IataCode u)) /\
  (forall s, validate.blank s = forallb validate.isSpace (list_ascii_of_string s)) /\
  (forall ms1 g ms2,
      run.decodeRequest (JObject (ms1 ++ ("geoloc", g) :: ms2))
      = run.decodeRequest (JObject (ms1 ++ ms2))).
Proof.
  split; [|split; [|split]].
  - unfold run.missing. simpl.
    destruct (validate.blank (Name u)), (validate.blank (City u)),
      (validate.blank (Country u)), (validate.blank (IataCode u)); reflexivity.
  - unfold validate.Check. simpl.
    destruct (validate.blank (Name u)), (validate.blank (City u)),
      (validate.blank (Country u)), (validate.blank (IataCode u)); reflexivity.
  - induction s as [|c s IH]; simpl; [reflexivity|]. rewrite IH. reflexivity.
  - intros ms1 g ms2. unfold run.decodeRequest. simpl.
    rewrite !unmarshalMembers_app. simpl.
    rewrite firstError_None. reflexivity.
Qed.

End validate_facts.

(** ** Beyond the closing bracket, and short of it *)
Section tail_facts.

Import json handlers.
Local Open Scope go_scope.












End tail_facts.

(** ** The full-buffer path decodes everything first *)
Section baseline_facts.

Import json handlers.
Local Open Scope go_scope.

Lemma unmarshalElements_saved (vs : list value) (e : error) :
  exists e', fst (unmarshalElements vs (Some e)) = Some e'.
Proof.
  induction vs as [|v vs IH]; simpl; [eexists; reflexivity|].
  destruct (unmarshalRequest v zeroRequest) as [e1 u]. simpl.
  destruct IH as [e' IH]. destruct (unmarshalElements vs (Some e)) as [s' us].
  simpl in *. exists e'. exact IH.
Qed.

Lemma unmarshalElements_undecodable (vs : list value) :
  existsb more.undecodable vs = true ->
  forall saved, exists e, fst (unmarshalElements vs saved) = Some e.
Proof.
  induction vs as [|v vs IH]; simpl; [discriminate|].
  intros H saved. apply orb_prop in H.
  unfold more.undecodable, run.decodeRequest in H.
  destruct (unmarshalRequest v zeroRequest) as [[e1|] u] eqn:E; simpl in H.
  - destruct saved as [e0|]; simpl.
    + destruct (unmarshalElements_saved vs e0) as [e' He'].
      destruct (unmarshalElements vs (Some e0)). simpl in *. eauto.
    + destruct (unmarshalElements_saved vs e1) as [e' He'].
      destruct (unmarshalElements vs (Some e1)). simpl in *. eauto.
  - destruct H as [H|H]; [discriminate|].
    destruct (IH H (firstError saved None)) as [e' He'].
    destruct (unmarshalElements vs (firstError saved None)). simpl in *. eauto.
Qed.


(** The full-buffer handler on a body that does not unmarshal. *)
Lemma HandleNonStreamingUpsert_malformed (body : list lexeme) (store : airports.DB)
    (ff : option error) (e : error) (us : list UpsertAirportRequest) :
  json.Unmarshal unmarshalRequests body [] = (Some e, us) ->
  HandleNonStreamingUpsert (mkRequest body None) (newWorld store ff)
  = Some (tt, mkWorld store (web.RespondWithError 400 "invalid JSON format" http.NewRecorder)
                ff [EvReadAll None; EvUnmarshal (Some e);
                    run.respondedError 400 "invalid JSON format"]).
Proof.
  intros HU.
  unfold HandleNonStreamingUpsert, newWorld, ioReadAll, jsonUnmarshal, bind, emit, ret.
  simpl. rewrite HU. reflexivity.
Qed.

(** X5.  On the full-buffer endpoint one element that does not decode,
    wherever it stands in the array, makes the whole request fail before
    anything is validated or persisted: the answer is status 400 with
    "invalid JSON format" and the store is left as it was, also for the
    valid elements that come before it. *)
Theorem baseline_persists_nothing_when_an_element_is_undecodable
    (vs : list value) (store : airports.DB) (ff : option error) :
  existsb more.undecodable vs = true ->
  exists s e,
    HandleNonStreamingUpsert (mkRequest (lex (JArray vs)) None) (newWorld store ff)
    = Some (tt, s) /\
    db s = store /\
    trace s = [EvReadAll None; EvUnmarshal (Some e);
               run.respondedError 400 "invalid JSON format"] /\
    http.Code (w s) = 400 /\
    http.written (w s) = [web.errorBody "invalid JSON format"].
Proof.
  intros H. destruct (unmarshalElements_undecodable vs H None) as [e He].
  assert (HU : json.Unmarshal unmarshalRequests (lex (JArray vs)) []
               = (Some e, snd (unmarshalElements vs None))).
  { unfold json.Unmarshal. rewrite <- (app_nil_r (lex (JArray vs))), readValue_lex.
    simpl. destruct (unmarshalElements vs None). simpl in *. subst. reflexivity. }
  eexists. exists e. split; [apply (HandleNonStreamingUpsert_malformed _ store ff e _ HU)|].
  repeat split.
Qed.

(** A valid element followed by a string. *)
Lemma baseline_persists_nothing_when_an_element_is_undecodable_witness :
  existsb more.undecodable [sample.cgh; JString "GRU"] = true /\
  exists s e,
    HandleNonStreamingUpsert (mkRequest (lex (JArray [sample.cgh; JString "GRU"])) None)
      (newWorld (airports.mkDB [] []) None)
    = Some (tt, s) /\
    db s = airports.mkDB [] [] /\
    trace s = [EvReadAll None; EvUnmarshal (Some e);
               run.respondedError 400 "invalid JSON format"] /\
    http.Code (w s) = 400 /\
    http.written (w s) = [web.errorBody "invalid JSON format"].
Proof.
  split; [reflexivity|].
  apply (baseline_persists_nothing_when_an_element_is_undecodable
           [sample.cgh; JString "GRU"] (airports.mkDB [] []) None).
  reflexivity.
Defined.

(** X6.  The full-buffer endpoint wants the body to be one JSON value and
    nothing else: a value followed by anything more (a valid array with
    trailing bytes, say) is answered with status 400 and "invalid JSON
    format", and nothing is persisted. *)
Theorem baseline_rejects_trailing_input
    (v : value) (junk : list lexeme) (store : airports.DB) (ff : option error) :
  junk <> [] ->
  exists s e,
    HandleNonStreamingUpsert (mkRequest (lex v ++ junk) None) (newWorld store ff)
    = Some (tt, s) /\
    db s = store /\
    trace s = [EvReadAll None; EvUnmarshal (Some e);
               run.respondedError 400 "invalid JSON format"] /\
    http.Code (w s) = 400 /\
    http.written (w s) = [web.errorBody "invalid JSON format"].
Proof.
  intros H. destruct junk as [|c junk]; [contradiction|].
  assert (HU : json.Unmarshal unmarshalRequests (lex v ++ c :: junk) []
               = (Some "invalid character after top-level value", [])).
  { unfold json.Unmarshal. rewrite readValue_lex. reflexivity. }
  eexists. eexists. split; [apply (HandleNonStreamingUpsert_malformed _ store ff _ _ HU)|].
  repeat split.
Qed.

Lemma baseline_rejects_trailing_input_witness :
  [LInvalid] <> [] /\
  exists s e,
    HandleNonStreamingUpsert (mkRequest (lex (JArray [sample.cgh]) ++ [LInvalid]) None)
      (newWorld (airports.mkDB [] []) None)
    = Some (tt, s) /\
    db s = airports.mkDB [] [] /\
    trace s = [EvReadAll None; EvUnmarshal (Some e);
               run.respondedError 400 "invalid JSON format"] /\
    http.Code (w s) = 400 /\
    http.written (w s) = [web.errorBody "invalid JSON format"].
Proof.
  split; [discriminate|].
  apply (baseline_rejects_trailing_input (JArray [sample.cgh]) [LInvalid]
           (airports.mkDB [] []) None).
  discriminate.
Defined.




End baseline_facts.

(** ** One response per exchange *)
Section response_facts.

Import json handlers.
Local Open Scope go_scope.

Lemma attempt_elementCalls u d evs r d' :
  run.attempt u d evs r d' -> forallb run.elementCall evs = true.
Proof. intros H. destruct H; reflexivity. Qed.

Lemma batch_elementCalls us d evs r d' :
  run.batch us d evs r d' -> forallb run.elementCall evs = true.
Proof.
  induction 1 as [d|u us d evs herr d' H|u us d evs d' evs' r d'' H _ IH].
  - reflexivity.
  - eapply attempt_elementCalls. exact H.
  - rewrite forallb_app, IH. erewrite attempt_elementCalls by exact H. reflexivity.
Qed.

Lemma elementCall_not_respond e : run.elementCall e = true -> run.isRespond e = false.
Proof. destruct e; simpl; congruence. Qed.

Lemma attempt_status u d evs herr d' :
  run.attempt u d evs (Some herr) d' -> code herr = 400 \/ code herr = 500.
Proof. intros H. inversion H; subst; [left|right]; reflexivity. Qed.

Lemma streaming_status d evs r d' :
  run.streaming d evs r d' ->
  forall herr, r = Some herr -> code herr = 400 \/ code herr = 500.
Proof.
  induction 1 as [d|d evs herr0 d' H|d evs d' evs' r d'' H _ IH]; intros herr E.
  - discriminate.
  - inversion E; subst. inversion H as [e u|u evs0 r0 d0 Hat]; subst.
    + left. reflexivity.
    + eapply attempt_status. exact Hat.
  - apply IH. exact E.
Qed.

Lemma batch_status us d evs r d' :
  run.batch us d evs r d' ->
  forall herr, r = Some herr -> code herr = 400 \/ code herr = 500.
Proof.
  induction 1 as [d|u us d evs herr0 d' H|u us d evs d' evs' r d'' H _ IH]; intros herr E.
  - discriminate.
  - inversion E; subst. eapply attempt_status. exact H.
  - apply IH. exact E.
Qed.

Lemma attempt_clean u d evs d' :
  run.attempt u d evs None d' -> existsb more.failedCall evs = false.
Proof. intros H. inversion H; subst. reflexivity. Qed.

Lemma streaming_clean d evs r d' :
  run.streaming d evs r d' -> r = None -> existsb more.failedCall evs = false.
Proof.
  induction 1 as [d|d evs herr0 d' H|d evs d' evs' r d'' H _ IH]; intros E.
  - reflexivity.
  - discriminate.
  - simpl. rewrite existsb_app, (IH E), orb_false_r.
    inversion H as [e u|u evs0 r0 d0 Hat]; subst. simpl.
    eapply attempt_clean. exact Hat.
Qed.

Lemma batch_clean us d evs r d' :
  run.batch us d evs r d' -> r = None -> existsb more.failedCall evs = false.
Proof.
  induction 1 as [d|u us d evs herr0 d' H|u us d evs d' evs' r d'' H _ IH]; intros E.
  - reflexivity.
  - discriminate.
  - rewrite existsb_app, (IH E), orb_false_r. eapply attempt_clean. exact H.
Qed.

Lemma respondedOnce_intro (s : World) pre evs status body :
  forallb run.elementCall evs = true ->
  existsb run.isRespond pre = false ->
  forall post,
    existsb run.isRespond post = false ->
    trace s = pre ++ evs ++ post ++ [EvRespond status body] ->
    http.written (w s) = [body] ->
    (http.Code (w s) = 200 \/ http.Code (w s) = 400 \/ http.Code (w s) = 500) ->
    more.respondedOnce s.
Proof.
  intros He Hpre post Hpost Ht Hw Hc.
  exists (pre ++ evs ++ post), status, body. split; [|split; [|split]].
  - rewrite Ht, <- !app_assoc. reflexivity.
  - rewrite !existsb_app, Hpre, Hpost.
    rewrite (forallb_existsb_false _ _ _ elementCall_not_respond He). reflexivity.
  - exact Hw.
  - exact Hc.
Qed.

(** X8.  Every exchange, on either endpoint and whatever the body, ends
    with exactly one write of a response: it is the last call made, no
    response is written before it, the body sent is that one JSON
    document, and the status is 200, 400 or 500. *)
Theorem exactly_one_response
    (r : Request) (store : airports.DB) (ff : option error) :
  (exists s, HandleUpsert r (newWorld store ff) = Some (tt, s) /\ more.respondedOnce s) /\
  (exists s, HandleNonStreamingUpsert r (newWorld store ff) = Some (tt, s) /\ more.respondedOnce s).
Proof.
  split.
  - destruct (HandleUpsert_run r store ff) as (s & Hs & Hrun).
    exists s. split; [exact Hs|].
    destruct Hrun as [t Ht|evs herr d' Hst|evs d' t Hst Ht|evs d' e Hst He|evs d' Hst He].
    + eapply respondedOnce_intro with (pre := [EvToken t]) (evs := []) (post := []);
        try reflexivity. right; left; reflexivity.
    + pose proof (streaming_status _ _ _ _ Hst herr eq_refl) as Hc.
      apply streaming_elementCalls in Hst.
      eapply respondedOnce_intro with (pre := [run.opened]) (evs := evs) (post := []);
        try reflexivity; [exact Hst|].
      simpl. destruct Hc as [-> | ->]; auto.
    + apply streaming_elementCalls in Hst.
      eapply respondedOnce_intro with (pre := [run.opened]) (evs := evs) (post := [EvToken t]);
        try reflexivity; [exact Hst|]. right; left; reflexivity.
    + apply streaming_elementCalls in Hst.
      eapply respondedOnce_intro
        with (pre := [run.opened]) (evs := evs) (post := [run.closed; EvFlush (Some e)]);
        try reflexivity; [exact Hst|]. right; right; reflexivity.
    + apply streaming_elementCalls in Hst.
      eapply respondedOnce_intro
        with (pre := [run.opened]) (evs := evs) (post := [run.closed; EvFlush None]);
        try reflexivity; [exact Hst|]. left; reflexivity.
  - destruct (HandleNonStreamingUpsert_run r store ff) as (s & Hs & Hrun).
    exists s. split; [exact Hs|].
    destruct Hrun as [e B|e us B U|us evs herr d' B U Hb|us evs d' B U Hb].
    + eapply respondedOnce_intro with (pre := [EvReadAll (Some e)]) (evs := []) (post := []);
        try reflexivity. right; left; reflexivity.
    + eapply respondedOnce_intro
        with (pre := [EvReadAll None; EvUnmarshal (Some e)]) (evs := []) (post := []);
        try reflexivity. right; left; reflexivity.
    + pose proof (batch_status _ _ _ _ _ Hb herr eq_refl) as Hc.
      apply batch_elementCalls in Hb.
      eapply respondedOnce_intro
        with (pre := [EvReadAll None; EvUnmarshal None]) (evs := evs) (post := []);
        try reflexivity; [exact Hb|].
      simpl. destruct Hc as [-> | ->]; auto.
    + apply batch_elementCalls in Hb.
      eapply respondedOnce_intro
        with (pre := [EvReadAll None; EvUnmarshal None]) (evs := evs) (post := []);
        try reflexivity; [exact Hb|]. left; reflexivity.
Qed.

Lemma status_not_200 (herr : handlerError) :
  code herr = 400 \/ code herr = 500 -> code herr <> 200.
Proof. intros [E|E]; rewrite E; discriminate. Qed.

(** X9.  On either endpoint status 200 with the success message is sent
    only when no call of the exchange returned an error: every token
    read, decode, validation, upsert and the flush succeeded.  In every
    other case the status is not 200 and the body is an error object. *)
Theorem success_only_when_nothing_failed
    (r : Request) (store : airports.DB) (ff : option error) :
  (exists s, HandleUpsert r (newWorld store ff) = Some (tt, s) /\ more.honest s) /\
  (exists s, HandleNonStreamingUpsert r (newWorld store ff) = Some (tt, s) /\ more.honest s).
Proof.
  split.
  - destruct (HandleUpsert_run r store ff) as (s & Hs & Hrun).
    exists s. split; [exact Hs|].
    destruct Hrun as [t Ht|evs herr d' Hst|evs d' t Hst Ht|evs d' e Hst He|evs d' Hst He].
    + right. split; [discriminate|]. eexists. reflexivity.
    + right. split; [|eexists; reflexivity].
      simpl. apply status_not_200. eapply streaming_status; [exact Hst|reflexivity].
    + right. split; [discriminate|]. eexists. reflexivity.
    + right. split; [discriminate|]. eexists. reflexivity.
    + left. split; [reflexivity|]. split; [reflexivity|].
      simpl. rewrite existsb_app, (streaming_clean _ _ _ _ Hst eq_refl). reflexivity.
  - destruct (HandleNonStreamingUpsert_run r store ff) as (s & Hs & Hrun).
    exists s. split; [exact Hs|].
    destruct Hrun as [e B|e us B U|us evs herr d' B U Hb|us evs d' B U Hb].
    + right. split; [discriminate|]. eexists. reflexivity.
    + right. split; [discriminate|]. eexists. reflexivity.
    + right. split; [|eexists; reflexivity].
      simpl. apply status_not_200. eapply batch_status; [exact Hb|reflexivity].
    + left. split; [reflexivity|]. split; [reflexivity|].
      simpl. rewrite existsb_app, (batch_clean _ _ _ _ _ Hb eq_refl). reflexivity.
Qed.

End response_facts.

(** ** What an exchange does to the table *)
Section table_facts.

Import json handlers.
Local Open Scope go_scope.

Section preserved.

Variable P : list airports.Airport -> Prop.
Hypothesis P_upsertRow : forall table a, P table -> P (run.upsertRow table a).

Lemma attempt_preserves u d evs r d' :
  run.attempt u d evs r d' -> P (airports.rows d) -> P (airports.rows d').
Proof.
  intros H HP. destruct H as [e C|cause d' C U|d' C U]; [exact HP| |];
    destruct (Upsert_cases d (ToAirport u)) as [(c0 & _ & E)|[_ E]];
    rewrite E in U; inversion U; subst; simpl; auto.
Qed.

Lemma streaming_preserves d evs r d' :
  run.streaming d evs r d' -> P (airports.rows d) -> P (airports.rows d').
Proof.
  assert (E : forall d evs r d', run.element d evs r d' ->
                                 P (airports.rows d) -> P (airports.rows d')).
  { intros ? ? ? ? H. destruct H; [auto|]. eapply attempt_preserves. eassumption. }
  induction 1; eauto.
Qed.

Lemma batch_preserves us d evs r d' :
  run.batch us d evs r d' -> P (airports.rows d) -> P (airports.rows d').
Proof.
  induction 1; intros HP; [exact HP| |].
  - eapply attempt_preserves; eassumption.
  - apply IHbatch. eapply attempt_preserves; eassumption.
Qed.

Lemma streamed_preserves store ff s :
  run.streamed store ff s -> P (airports.rows store) -> P (airports.rows (db s)).
Proof.
  intros H HP. destruct H; simpl; try exact HP; eapply streaming_preserves; eassumption.
Qed.

Lemma buffered_preserves r store ff s :
  run.buffered r store ff s -> P (airports.rows store) -> P (airports.rows (db s)).
Proof.
  intros H HP. destruct H; simpl; try exact HP; eapply batch_preserves; eassumption.
Qed.

End preserved.

Lemma kept_upsertRow (old : list airports.Airport) table a :
  more.kept old table -> more.kept old (run.upsertRow table a).
Proof.
  intros [added H]. unfold more.kept. rewrite upsertRow_codes.
  destruct (existsb _ table).
  - exists added. exact H.
  - exists (added ++ [airports.IataCode a]). rewrite H, app_assoc. reflexivity.
Qed.

(** X10.  No exchange, on either endpoint and whatever the body, deletes a
    record, renames a code or moves a record: the codes the table held
    before are still there afterwards, in the same order and at the front,
    with the codes of the created records after them. *)
Theorem exchange_never_deletes
    (r : Request) (store : airports.DB) (ff : option error) :
  (exists s,
      HandleUpsert r (newWorld store ff) = Some (tt, s) /\
      more.kept (airports.rows store) (airports.rows (db s))) /\
  (exists s,
      HandleNonStreamingUpsert r (newWorld store ff) = Some (tt, s) /\
      more.kept (airports.rows store) (airports.rows (db s))).
Proof.
  assert (K : more.kept (airports.rows store) (airports.rows store))
    by (exists []; rewrite app_nil_r; reflexivity).
  split.
  - destruct (HandleUpsert_run r store ff) as (s & Hs & Hrun).
    exists s. split; [exact Hs|].
    apply (streamed_preserves _ (kept_upsertRow (airports.rows store)) _ _ _ Hrun K).
  - destruct (HandleNonStreamingUpsert_run r store ff) as (s & Hs & Hrun).
    exists s. split; [exact Hs|].
    apply (buffered_preserves _ (kept_upsertRow (airports.rows store)) _ _ _ _ Hrun K).
Qed.

(** X11.  A table in which every code occurs once is left so by every
    exchange, on either endpoint and whatever the body: the handlers keep
    the uniqueness that the conflict target of the upsert statement
    relies on. *)
Theorem exchange_keeps_codes_unique
    (r : Request) (store : airports.DB) (ff : option error) :
  NoDup (run.codes (airports.rows store)) ->
  (exists s,
      HandleUpsert r (newWorld store ff) = Some (tt, s) /\
      NoDup (run.codes (airports.rows (db s)))) /\
  (exists s,
      HandleNonStreamingUpsert r (newWorld store ff) = Some (tt, s) /\
      NoDup (run.codes (airports.rows (db s)))).
Proof.
  intros U. split.
  - destruct (HandleUpsert_run r store ff) as (s & Hs & Hrun).
    exists s. split; [exact Hs|].
    apply (streamed_preserves (fun t => NoDup (run.codes t)) upsertRow_unique _ _ _ Hrun U).
  - destruct (HandleNonStreamingUpsert_run r store ff) as (s & Hs & Hrun).
    exists s. split; [exact Hs|].
    apply (buffered_preserves (fun t => NoDup (run.codes t)) upsertRow_unique _ _ _ _ Hrun U).
Qed.

Lemma exchange_keeps_codes_unique_witness :
  NoDup (run.codes (airports.rows (airports.mkDB [sample.atl] []))) /\
  (exists s,
      HandleUpsert (mkRequest (lex (JArray [sample.cgh; sample.cghRenamed])) None)
        (newWorld (airports.mkDB [sample.atl] []) None) = Some (tt, s) /\
      NoDup (run.codes (airports.rows (db s)))) /\
  (exists s,
      HandleNonStreamingUpsert (mkRequest (lex (JArray [sample.cgh; sample.cghRenamed])) None)
        (newWorld (airports.mkDB [sample.atl] []) None) = Some (tt, s) /\
      NoDup (run.codes (airports.rows (db s)))).
Proof.
  split; [constructor; [intros []|constructor]|].
  apply (exchange_keeps_codes_unique
           (mkRequest (lex (JArray [sample.cgh; sample.cghRenamed])) None)
           (airports.mkDB [sample.atl] []) None).
  constructor; [intros []|constructor].
Defined.

End table_facts.

(** ** Arrays of any length *)
Section sequence_facts.

Import json handlers.
Local Open Scope go_scope.

Lemma persist_rows (vs : list value) (store : airports.DB) :
  airports.rows (run.persist vs store)
  = more.upsertAll (map run.airportOf vs) (airports.rows store).
Proof. reflexivity. Qed.

Lemma upsertAll_snoc l a (table : list airports.Airport) :
  more.upsertAll (l ++ [a]) table = run.upsertRow (more.upsertAll l table) a.
Proof. unfold more.upsertAll. rewrite fold_left_app. reflexivity. Qed.

Lemma upsertAll_unique l (table : list airports.Airport) :
  NoDup (run.codes table) -> NoDup (run.codes (more.upsertAll l table)).
Proof.
  revert table. induction l as [|a l IH]; intros table H; [exact H|].
  simpl. apply IH, upsertRow_unique, H.
Qed.

Lemma lastWith_snoc c l a :
  more.lastWith c (l ++ [a])
  = if run.hasCode c a then Some a else more.lastWith c l.
Proof. unfold more.lastWith. rewrite rev_app_distr. reflexivity. Qed.

Lemma upsertRow_other_code c (table : list airports.Airport) a :
  run.hasCode c a = false ->
  filter (run.hasCode c) (run.upsertRow table a) = filter (run.hasCode c) table.
Proof.
  unfold run.upsertRow. intros Ha. induction table as [|r table IH]; simpl.
  - unfold run.hasCode in *. simpl. rewrite Ha. reflexivity.
  - destruct (String.eqb (airports.IataCode r) (airports.IataCode a)) eqn:E; simpl.
    + apply String.eqb_eq in E. unfold run.hasCode in *. simpl.
      rewrite E, Ha. reflexivity.
    + rewrite IH. reflexivity.
Qed.

Lemma upsertAll_filter c l (table : list airports.Airport) :
  NoDup (run.codes table) ->
  filter (run.hasCode c) (more.upsertAll l table)
  = match more.lastWith c l with
    | Some a => [a]
    | None => filter (run.hasCode c) table
    end.
Proof.
  intros U. induction l as [|a l IH] using rev_ind; [reflexivity|].
  rewrite upsertAll_snoc, lastWith_snoc.
  destruct (run.hasCode c a) eqn:E.
  - unfold run.hasCode in E. apply String.eqb_eq in E. subst c.
    apply upsertRow_single, upsertAll_unique, U.
  - rewrite upsertRow_other_code by exact E. exact IH.
Qed.

Lemma upsertRow_fresh (table : list airports.Airport) a :
  ~ In (airports.IataCode a) (run.codes table) ->
  run.upsertRow table a = table ++ [a].
Proof.
  unfold run.upsertRow. induction table as [|r table IH]; simpl; intros H.
  - destruct a; reflexivity.
  - destruct (String.eqb_spec (airports.IataCode r) (airports.IataCode a)) as [E|E].
    + exfalso. apply H. left. exact E.
    + rewrite IH; [reflexivity|]. intros Hin. apply H. right. exact Hin.
Qed.

Lemma upsertAll_fresh l (table : list airports.Airport) :
  NoDup (run.codes table ++ run.codes l) ->
  more.upsertAll l table = table ++ l.
Proof.
  revert table. induction l as [|a l IH]; intros table H; simpl.
  - rewrite app_nil_r. reflexivity.
  - simpl in H. rewrite upsertRow_fresh.
    + rewrite IH.
      * rewrite <- app_assoc. reflexivity.
      * unfold run.codes in *. rewrite map_app, <- app_assoc. exact H.
    + apply NoDup_remove_2 in H. intros Hin. apply H, in_or_app. left. exact Hin.
Qed.

Lemma existsb_hasCode_present c (table : list airports.Airport) :
  In c (run.codes table) -> existsb (run.hasCode c) table = true.
Proof.
  intros H. apply existsb_exists. apply in_map_iff in H. destruct H as (r & E & Hr).
  exists r. split; [exact Hr|]. unfold run.hasCode. rewrite E. apply String.eqb_refl.
Qed.

Lemma upsertRow_keeps_code c (table : list airports.Airport) a :
  In c (run.codes table) -> In c (run.codes (run.upsertRow table a)).
Proof.
  intros H. rewrite upsertRow_codes. destruct (existsb _ table); [exact H|].
  apply in_or_app. left. exact H.
Qed.

Lemma upsertAll_keeps_code c l (table : list airports.Airport) :
  In c (run.codes table) -> In c (run.codes (more.upsertAll l table)).
Proof.
  revert table. induction l as [|a l IH]; intros table H; [exact H|].
  simpl. apply IH, upsertRow_keeps_code, H.
Qed.

Lemma upsertAll_has a l (table : list airports.Airport) :
  In a l -> In (airports.IataCode a) (run.codes (more.upsertAll l table)).
Proof.
  revert table. induction l as [|b l IH]; intros table Hin; [destruct Hin|].
  destruct Hin as [E|H].
  - subst b. simpl. apply upsertAll_keeps_code.
    destruct (existsb_exists (run.hasCode (airports.IataCode a)) (run.upsertRow table a))
      as [Hex _].
    destruct (Hex (upsertRow_present table a)) as (r & Hr & Hc).
    unfold run.hasCode in Hc. apply String.eqb_eq in Hc. rewrite <- Hc.
    apply in_map. exact Hr.
  - simpl. apply IH. exact H.
Qed.

Lemma upsertAll_codes_present l (table : list airports.Airport) :
  (forall a, In a l -> In (airports.IataCode a) (run.codes table)) ->
  run.codes (more.upsertAll l table) = run.codes table.
Proof.
  revert table. induction l as [|a l IH]; intros table H; [reflexivity|].
  simpl.
  assert (E : run.codes (run.upsertRow table a) = run.codes table).
  { rewrite upsertRow_codes, existsb_hasCode_present; [reflexivity|].
    apply H. left. reflexivity. }
  rewrite IH; [exact E|].
  intros b Hb. rewrite E. apply H. right. exact Hb.
Qed.

Lemma table_ext (t1 t2 : list airports.Airport) :
  run.codes t1 = run.codes t2 ->
  (forall c, filter (run.hasCode c) t1 = filter (run.hasCode c) t2) ->
  t1 = t2.
Proof.
  revert t2. induction t1 as [|r1 t1 IH]; intros [|r2 t2] Hc Hf;
    try discriminate; [reflexivity|].
  simpl in Hc. injection Hc as Hh Ht. f_equal.
  - specialize (Hf (airports.IataCode r1)). simpl in Hf. unfold run.hasCode in Hf.
    rewrite <- Hh, String.eqb_refl in Hf. injection Hf as E _. exact E.
  - apply IH; [exact Ht|]. intros c. specialize (Hf c). simpl in Hf.
    unfold run.hasCode in Hf. rewrite <- Hh in Hf.
    destruct (String.eqb (airports.IataCode r1) c); [injection Hf as _ E; exact E|exact Hf].
Qed.

Lemma upsertAll_twice l (table : list airports.Airport) :
  NoDup (run.codes table) ->
  more.upsertAll l (more.upsertAll l table) = more.upsertAll l table.
Proof.
  intros U. apply table_ext.
  - apply upsertAll_codes_present. intros a Ha. apply upsertAll_has. exact Ha.
  - intros c. rewrite (upsertAll_filter c l (more.upsertAll l table))
      by (apply upsertAll_unique; exact U).
    rewrite (upsertAll_filter c l table U).
    destruct (more.lastWith c l); reflexivity.
Qed.

Lemma noFaults_add n m (store : airports.DB) :
  run.noFaults (n + m) store = true ->
  run.noFaults n store = true /\
  forallb run.isNone (firstn m (skipn n (airports.faults store))) = true.
Proof.
  unfold run.noFaults. generalize (airports.faults store) as fs.
  induction n as [|n IH]; intros fs H; simpl in *.
  - split; [reflexivity|exact H].
  - destruct fs as [|f fs]; simpl in *.
    + split; [reflexivity|]. rewrite firstn_nil. reflexivity.
    + apply andb_prop in H. destruct H as [Hf H]. rewrite Hf. simpl. apply IH, H.
Qed.



Lemma noFaults_persist (vs : list value) (store : airports.DB) :
  run.noFaults (List.length vs + List.length vs) store = true ->
  run.noFaults (List.length vs) store = true /\
  run.noFaults (List.length vs) (run.persist vs store) = true.
Proof. intros H. apply noFaults_add in H. exact H. Qed.

(** X13.  Submitting the same array a second time changes nothing: when
    an array of any length whose elements all decode and validate is
    submitted twice in a row to an endpoint, the driver failing no
    statement and the table holding each code once, the table after the
    second exchange is the table after the first. *)
Theorem resubmission_changes_nothing
    (vs : list value) (store : airports.DB) (ff : option error) :
  NoDup (run.codes (airports.rows store)) ->
  forallb run.accepted vs = true ->
  run.noFaults (List.length vs + List.length vs) store = true ->
  (exists s1 s2,
      HandleUpsert (mkRequest (lex (JArray vs)) None) (newWorld store ff) = Some (tt, s1) /\
      HandleUpsert (mkRequest (lex (JArray vs)) None) (newWorld (db s1) ff) = Some (tt, s2) /\
      airports.rows (db s2) = airports.rows (db s1)) /\
  (exists s1 s2,
      HandleNonStreamingUpsert (mkRequest (lex (JArray vs)) None) (newWorld store ff)
      = Some (tt, s1) /\
      HandleNonStreamingUpsert (mkRequest (lex (JArray vs)) None) (newWorld (db s1) ff)
      = Some (tt, s2) /\
      airports.rows (db s2) = airports.rows (db s1)).
Proof.
  intros U Hacc Hnf. destruct (noFaults_persist vs store Hnf) as [H1 H2]. split.
  - rewrite (HandleUpsert_accepted vs store ff None Hacc H1).
    eexists. eexists. split; [reflexivity|]. simpl db.
    rewrite (HandleUpsert_accepted vs (run.persist vs store) ff None Hacc H2).
    split; [reflexivity|]. simpl db. rewrite !persist_rows.
    apply upsertAll_twice, U.
  - rewrite (HandleNonStreamingUpsert_accepted vs store ff Hacc H1).
    eexists. eexists. split; [reflexivity|]. simpl db.
    rewrite (HandleNonStreamingUpsert_accepted vs (run.persist vs store) ff Hacc H2).
    split; [reflexivity|]. simpl db. rewrite !persist_rows.
    apply upsertAll_twice, U.
Qed.

Lemma resubmission_changes_nothing_witness :
  (exists s1 s2,
      HandleUpsert (mkRequest (lex (JArray [sample.cgh; sample.gru; sample.cghRenamed])) None)
        (newWorld (airports.mkDB [sample.atl] []) None) = Some (tt, s1) /\
      HandleUpsert (mkRequest (lex (JArray [sample.cgh; sample.gru; sample.cghRenamed])) None)
        (newWorld (db s1) None) = Some (tt, s2) /\
      airports.rows (db s2) = airports.rows (db s1)) /\
  (exists s1 s2,
      HandleNonStreamingUpsert
        (mkRequest (lex (JArray [sample.cgh; sample.gru; sample.cghRenamed])) None)
        (newWorld (airports.mkDB [sample.atl] []) None) = Some (tt, s1) /\
      HandleNonStreamingUpsert
        (mkRequest (lex (JArray [sample.cgh; sample.gru; sample.cghRenamed])) None)
        (newWorld (db s1) None) = Some (tt, s2) /\
      airports.rows (db s2) = airports.rows (db s1)).
Proof.
  apply (resubmission_changes_nothing
           [sample.cgh; sample.gru; sample.cghRenamed]
           (airports.mkDB [sample.atl] []) None).
  - constructor; [intros []|constructor].
  - reflexivity.
  - reflexivity.
Defined.

Lemma airportOf_encode (a : airports.Airport) : run.airportOf (more.encode a) = a.
Proof. destruct a. reflexivity. Qed.

Lemma map_airportOf_encode (l : list airports.Airport) :
  map run.airportOf (map more.encode l) = l.
Proof.
  induction l as [|a l IH]; [reflexivity|].
  simpl map. rewrite airportOf_encode, IH. reflexivity.
Qed.

(** X14.  Records under new codes are stored as submitted: when the
    records [l], serialised as objects with the members name, city,
    country and iata_code, pass validation, carry codes that are pairwise
    distinct and not in the table, and the driver fails no statement,
    then after the exchange on either endpoint the table is the former
    table followed by the records [l], in the order of the array and
    with the submitted values. *)
Theorem new_records_are_stored_as_submitted
    (l : list airports.Airport) (store : airports.DB) (ff : option error) :
  NoDup (run.codes (airports.rows store) ++ run.codes l) ->
  forallb run.accepted (map more.encode l) = true ->
  run.noFaults (List.length l) store = true ->
  (exists s,
      HandleUpsert (mkRequest (lex (JArray (map more.encode l))) None) (newWorld store ff)
      = Some (tt, s) /\
      airports.rows (db s) = airports.rows store ++ l) /\
  (exists s,
      HandleNonStreamingUpsert (mkRequest (lex (JArray (map more.encode l))) None)
        (newWorld store ff) = Some (tt, s) /\
      airports.rows (db s) = airports.rows store ++ l).
Proof.
  intros U Hacc Hnf.
  assert (Hn : run.noFaults (List.length (map more.encode l)) store = true)
    by (rewrite length_map; exact Hnf).
  split.
  - rewrite (HandleUpsert_accepted _ store ff None Hacc Hn).
    eexists. split; [reflexivity|]. simpl db.
    rewrite persist_rows, map_airportOf_encode. apply upsertAll_fresh, U.
  - rewrite (HandleNonStreamingUpsert_accepted _ store ff Hacc Hn).
    eexists. split; [reflexivity|]. simpl db.
    rewrite persist_rows, map_airportOf_encode. apply upsertAll_fresh, U.
Qed.

Lemma new_records_are_stored_as_submitted_witness :
  (exists s,
      HandleUpsert
        (mkRequest (lex (JArray (map more.encode
                                   [run.airportOf sample.cgh; run.airportOf sample.gru])))
           None)
        (newWorld (airports.mkDB [sample.atl] []) None) = Some (tt, s) /\
      airports.rows (db s)
      = airports.rows (airports.mkDB [sample.atl] [])
          ++ [run.airportOf sample.cgh; run.airportOf sample.gru]) /\
  (exists s,
      HandleNonStreamingUpsert
        (mkRequest (lex (JArray (map more.encode
                                   [run.airportOf sample.cgh; run.airportOf sample.gru])))
           None)
        (newWorld (airports.mkDB [sample.atl] []) None) = Some (tt, s) /\
      airports.rows (db s)
      = airports.rows (airports.mkDB [sample.atl] [])
          ++ [run.airportOf sample.cgh; run.airportOf sample.gru]).
Proof.
  apply (new_records_are_stored_as_submitted
           [run.airportOf sample.cgh; run.airportOf sample.gru]
           (airports.mkDB [sample.atl] []) None).
  - repeat constructor; simpl; intros H;
      repeat (destruct H as [H|H]; [discriminate H|]); exact H.
  - reflexivity.
  - reflexivity.
Defined.

End sequence_facts.

(** ** The generated payload *)
Section generator_facts.

Import json handlers.
Local Open Scope go_scope.










End generator_facts.
